(** * ROUGE scores: a shallow embedding of [rouge/rouge.py]

    The development follows the Python module function by function.

    - Python [int]s are [Z] (counts, the n-gram order [n]) or [nat] (loop
      indices, table coordinates and LCS lengths, which the code never
      makes negative).
    - Python [float]s are idealised as real numbers [R]: [+], [-], [*]
      and [/] are exact, and [math.pow] returns the exact power.  The
      errors [math.pow] raises are kept: [ValueError] outside its domain
      and [OverflowError] when the power is beyond the largest double.
      The rounding of IEEE arithmetic, infinities and NaN are outside this
      model, so a statement here is about the code only as far as it does
      not depend on the last bits of a result.  Where the last bits
      matter, the score combinator is transcribed a second time on
      binary64 floats ([Binary64]), which evaluates it on concrete inputs
      exactly as the doubles of Python do.
    - A [dict] keyed by coordinate pairs and a [collections.Counter] are
      [gmap]s; a [set] is a [gset].
    - [raise] is the [Raise] constructor of the [result] type; a function
      that can raise returns a [result]. *)

From Stdlib Require Import Reals Lra Lia ZArith Floats.
From stdpp Require Import base option list gmap strings.

(** ** Exceptions and results *)

Inductive exn : Type :=
| ValueError (msg : string)
| OverflowError (msg : string)
| IndexError (msg : string)
| KeyError.

Inductive result (A : Type) : Type :=
| Ok (a : A)
| Raise (e : exn).
Arguments Ok {A} a.
Arguments Raise {A} e.

#[global] Instance result_ret : MRet result := @Ok.
#[global] Instance result_bind : MBind result :=
  λ A B f r, match r with Ok a => f a | Raise e => Raise e end.

#[global] Instance result_fmap : FMap result :=
  λ A B f r, match r with Ok a => Ok (f a) | Raise e => Raise e end.

(** A [for] loop whose body may raise. *)
Fixpoint foldlM {A B : Type} (f : A → B → result A) (a : A) (l : list B)
  : result A :=
  match l with
  | [] => Ok a
  | b :: l' => a' ← f a b; foldlM f a' l'
  end.

(** [seq[i]] for an index [i >= 0]: out of range raises. *)
Definition getitem {A : Type} (xs : list A) (i : nat) : result A :=
  match xs !! i with
  | Some a => Ok a
  | None => Raise (IndexError "list index out of range")
  end.

(** [table[k]] on a [dict]: a missing key raises. *)
Definition dict_get {K V : Type} `{Countable K} (table : gmap K V) (k : K)
  : result V :=
  match table !! k with
  | Some v => Ok v
  | None => Raise KeyError
  end.

(** The shape shared by the dynamic-programming routines:
    [for i in range(n + 1): for j in range(m + 1): body]. *)
Definition dp_loop {St : Type} (n m : nat) (body : nat → nat → St → result St)
    (s : St) : result St :=
  foldlM (λ s i, foldlM (λ s j, body i j s) s (seq 0 (m + 1))) s
    (seq 0 (n + 1)).

(** ** Numbers *)

#[global] Instance R_inhabited : Inhabited R := populate 0%R.
#[global] Instance Req_decision : EqDecision R := Req_dec_T.
#[global] Instance Rle_decision (a b : R) : Decision (a <= b)%R := Rle_dec a b.
#[global] Instance Rlt_decision (a b : R) : Decision (a < b)%R := Rlt_dec a b.

(** The exact power [x ** y].  [Rpower x y] is [exp (y * ln x)], which is
    the power for [x > 0]; a power of 0 is 0, except that [0 ** 0] is 1; a
    negative base has a power for an integer exponent, of the sign the
    parity of the exponent gives. *)
Definition real_pow (x y : R) : R :=
  if decide (x = 0%R) then (if decide (y = 0%R) then 1%R else 0%R)
  else if decide (0 < x)%R then Rpower x y
  else ((if Z.even (Int_part y) then 1 else -1) * Rpower (- x) y)%R.

(** The largest finite double, [(2 - 2^-52) * 2^1023]. *)
Definition DBL_MAX : R := ((2 - / 2 ^ 52) * 2 ^ 1023)%R.

(** [math.pow(x, y)]: a negative base with an exponent that is not an
    integer, and 0 to a negative power, raise
    [ValueError('math domain error')]; a power beyond the largest double
    raises [OverflowError('math range error')]; otherwise the power is
    returned (here the exact one). *)
Definition math_pow (x y : R) : result R :=
  if decide ((x < 0 ∧ IZR (Int_part y) ≠ y) ∨ (x = 0 ∧ y < 0))%R then
    Raise (ValueError "math domain error")
  else if decide (DBL_MAX < Rabs (real_pow x y))%R then
    Raise (OverflowError "math range error")
  else Ok (real_pow x y).

Definition DEFAULT_WEIGHT_FACTOR : R := (12 / 10)%R.

(** A score triple [(recall, precision, f1)]. *)
Definition score_triple : Type := R * R * R.

(** ** Score combinator *)

Definition _divide_or_zero (numerator denominator : R) : R :=
  if decide (denominator = 0%R) then 0%R
  else (numerator / denominator)%R.

Definition _compute_f1_measure (recall precision : R) (alpha : option R)
  : result R :=
  let alpha := default (1 / 2)%R alpha in
  if decide (0 <= alpha ∧ alpha <= 1)%R
  then Ok (_divide_or_zero (precision * recall)
             ((1 - alpha) * precision + alpha * recall))
  else Raise (ValueError "alpha must be between [0, 1]").

Definition _f1_measure (numerator r_denominator p_denominator : R)
    (alpha : option R) : result score_triple :=
  let recall := _divide_or_zero numerator r_denominator in
  let precision := _divide_or_zero numerator p_denominator in
  f1 ← _compute_f1_measure recall precision alpha;
  Ok (recall, precision, f1).

(** ** The score combinator on doubles

    [_divide_or_zero], [_compute_f1_measure] and [_f1_measure] use only
    [*], [+], [-], [/] and comparisons of doubles.  Rocq's primitive
    floats are IEEE binary64 with rounding to nearest even, as Python's
    [float], so this transcription computes what the code computes, to
    the last bit.  ([math.pow] is a function of the C library and has no
    counterpart here.) *)

Module Binary64.

(** [float(z)] for a count [z]: exact below [2^53].  Python divides two
    [int]s exactly and rounds once; for counts that convert exactly this
    is the division of their doubles. *)
Definition float_of_int (z : Z) : float :=
  if (z <? 0)%Z then PrimFloat.opp (PrimFloat.of_uint63 (Uint63.of_Z (- z)))
  else PrimFloat.of_uint63 (Uint63.of_Z z).

Definition _divide_or_zero (numerator denominator : float) : float :=
  if PrimFloat.eqb denominator 0%float then 0%float
  else PrimFloat.div numerator denominator.

Definition _compute_f1_measure (recall precision : float)
    (alpha : option float) : result float :=
  let alpha := default 0.5%float alpha in
  if PrimFloat.leb 0%float alpha && PrimFloat.leb alpha 1%float
  then Ok (_divide_or_zero (PrimFloat.mul precision recall)
             (PrimFloat.add
                (PrimFloat.mul (PrimFloat.sub 1%float alpha) precision)
                (PrimFloat.mul alpha recall)))
  else Raise (ValueError "alpha must be between [0, 1]").

Definition _f1_measure (numerator r_denominator p_denominator : Z)
    (alpha : option float) : result (float * float * float) :=
  let recall :=
    _divide_or_zero (float_of_int numerator) (float_of_int r_denominator) in
  let precision :=
    _divide_or_zero (float_of_int numerator) (float_of_int p_denominator) in
  f1 ← _compute_f1_measure recall precision alpha;
  Ok (recall, precision, f1).

End Binary64.

(** ** Python sequences *)

(** [len(words)] as a Python int. *)
Definition len {A : Type} (words : list A) : Z := Z.of_nat (length words).

(** A slice bound, as Python normalises it: a negative bound counts from
    the end, and the result is clamped to [0 .. len]. *)
Definition slice_bound (length k : Z) : Z :=
  if (k <? 0)%Z then Z.max (length + k) 0 else Z.min k length.

(** [words[start:stop]]. *)
Definition slice {A : Type} (words : list A) (start stop : Z) : list A :=
  let lo := slice_bound (len words) start in
  let hi := slice_bound (len words) stop in
  take (Z.to_nat (hi - lo)) (drop (Z.to_nat lo) words).

(** [range(k)]. *)
Definition range (k : Z) : list Z := Z.of_nat <$> seq 0 (Z.to_nat k).

(** ** Counters *)

Section counter.
Context {K : Type} `{Countable K}.

(** [collections.Counter(iterable)]: tally the elements. *)
Definition Counter (elems : list K) : gmap K Z :=
  foldl (λ c k, <[k := (default 0 (c !! k) + 1)%Z]> c) ∅ elems.

(** [a & b]: the minimum of corresponding counts, positive counts only. *)
Definition counter_and (a b : gmap K Z) : gmap K Z :=
  intersection_with
    (λ ca cb, let c := if (ca <? cb)%Z then ca else cb in
              if (0 <? c)%Z then Some c else None) a b.

(** [sum(c.values())]. *)
Definition counter_sum (c : gmap K Z) : Z :=
  map_fold (λ _ v acc, (acc + v)%Z) 0%Z c.
End counter.

(** ** N-gram statistics *)

Section ngrams.
Context {token : Type} `{Countable token}.

Definition _num_ngrams (words : list token) (n : Z) : Z :=
  Z.max (len words - n + 1) 0.

(** The n-grams the generator yields, in order. *)
Definition _get_ngram (words : list token) (n : Z) : list (list token) :=
  (λ i, slice words i (i + n)) <$> range (_num_ngrams words n).

Definition _count_ngrams (words : list token) (n : Z)
  : gmap (list token) Z :=
  Counter (_get_ngram words n).

Definition _clipped_ngram_count (summary_ngrams reference_ngrams
    : gmap (list token) Z) : Z :=
  let overlap := counter_and summary_ngrams reference_ngrams in
  counter_sum overlap.

Definition rouge_n_sentence_level (summary_sentence reference_sentence
    : list token) (n : Z) (alpha : option R) : result score_triple :=
  let summary_ngrams := _count_ngrams summary_sentence n in
  let reference_ngrams := _count_ngrams reference_sentence n in
  let total_matches := _clipped_ngram_count summary_ngrams reference_ngrams in
  let recall_denominator := _num_ngrams reference_sentence n in
  let precision_denominator := _num_ngrams summary_sentence n in
  _f1_measure (IZR total_matches) (IZR recall_denominator)
    (IZR precision_denominator) alpha.

(** [list(itertools.chain.from_iterable(sentences))]: the chain yields
    the tokens of each sentence in turn, and [list] collects them one by
    one. *)
Definition _flatten_sentences (sentences : list (list token)) : list token :=
  foldl (λ tokens sentence,
           foldl (λ tokens word, tokens ++ [word]) tokens sentence)
    [] sentences.

Definition rouge_n_summary_level (summary_sentences reference_sentences
    : list (list token)) (n : Z) (alpha : option R) : result score_triple :=
  let summary_sentences := _flatten_sentences summary_sentences in
  let reference_sentences := _flatten_sentences reference_sentences in
  rouge_n_sentence_level summary_sentences reference_sentences n alpha.

Definition _flatten_and_count_ngrams (sentences : list (list token)) (n : Z)
  : gmap (list token) Z :=
  _count_ngrams (_flatten_sentences sentences) n.
End ngrams.

(** ** LCS engine *)

Section lcs.
Context {token : Type} `{Countable token}.

(** The inner function [_compute_lcs_table] of [_lcs_length]. *)
Definition _lcs_length__compute_lcs_table (x y : list token)
  : result (gmap (nat * nat) nat) :=
  let n := length x in
  let m := length y in
  dp_loop n m (λ i j len_table,
    if decide (i = 0 ∨ j = 0) then Ok (<[(i, j) := 0]> len_table)
    else
      xi ← getitem x (i - 1);
      yj ← getitem y (j - 1);
      if decide (xi = yj) then
        v ← dict_get len_table (i - 1, j - 1);
        Ok (<[(i, j) := v + 1]> len_table)
      else
        a ← dict_get len_table (i - 1, j);
        b ← dict_get len_table (i, j - 1);
        Ok (<[(i, j) := a `max` b]> len_table)) ∅.

Definition _lcs_length (x y : list token) : result nat :=
  let n := length x in
  let m := length y in
  table ← _lcs_length__compute_lcs_table x y;
  dict_get table (n, m).

Definition rouge_l_sentence_level (summary_sentence reference_sentence
    : list token) (alpha : option R) : result score_triple :=
  lcs_length ← _lcs_length summary_sentence reference_sentence;
  let r_denominator := len reference_sentence in
  let p_denominator := len summary_sentence in
  _f1_measure (INR lcs_length) (IZR r_denominator) (IZR p_denominator) alpha.

(** [rouge_l_sentence_level] with its scores as doubles. *)
Definition rouge_l_sentence_level__binary64 (summary_sentence
    reference_sentence : list token) (alpha : option float)
  : result (float * float * float) :=
  lcs_length ← _lcs_length summary_sentence reference_sentence;
  let r_denominator := len reference_sentence in
  let p_denominator := len summary_sentence in
  Binary64._f1_measure (Z.of_nat lcs_length) r_denominator p_denominator
    alpha.

(** The inner function [_compute_lcs_table] of [_lcs_elements], with both
    of its tables; the Python function returns the second. *)
Definition _lcs_elements__tables (x y : list token)
  : result (gmap (nat * nat) nat * gmap (nat * nat) string) :=
  let n := length x in
  let m := length y in
  dp_loop n m (λ i j '(len_table, trace_table),
    if decide (i = 0 ∨ j = 0) then
      Ok (<[(i, j) := 0]> len_table, trace_table)
    else
      xi ← getitem x (i - 1);
      yj ← getitem y (j - 1);
      if decide (xi = yj) then
        v ← dict_get len_table (i - 1, j - 1);
        Ok (<[(i, j) := v + 1]> len_table, <[(i, j) := "d"]> trace_table)
      else
        a ← dict_get len_table (i - 1, j);
        b ← dict_get len_table (i, j - 1);
        if decide (b < a) then
          Ok (<[(i, j) := a]> len_table, <[(i, j) := "u"]> trace_table)
        else
          Ok (<[(i, j) := b]> len_table, <[(i, j) := "l"]> trace_table))
    (∅, ∅).

Definition _lcs_elements__compute_lcs_table (x y : list token)
  : result (gmap (nat * nat) string) :=
  snd <$> _lcs_elements__tables x y.

(** The [while i != 0 and j != 0] loop of [_lcs_elements].  Every
    iteration decrements [i], [j] or both, which the nested recursion
    follows: the outer one on [i], the inner one on [j]. *)
Fixpoint _lcs_elements__loop (table : gmap (nat * nat) string) (i : nat)
    : nat → gset (nat * nat) → result (gset (nat * nat)) :=
  match i with
  | 0 => λ _ elements, Ok elements
  | S i' =>
      fix inner (j : nat) (elements : gset (nat * nat)) :=
        match j with
        | 0 => Ok elements
        | S j' =>
            t ← dict_get table (S i', S j');
            if decide (t = "d") then
              _lcs_elements__loop table i' j' ({[(i', j')]} ∪ elements)
            else if decide (t = "u") then
              _lcs_elements__loop table i' (S j') elements
            else inner j' elements
        end
  end.

Definition _lcs_elements (x y : list token) : result (gset (nat * nat)) :=
  table ← _lcs_elements__compute_lcs_table x y;
  _lcs_elements__loop table (length x) (length y) ∅.

Definition _make_lcs_union (summary_sentences : list (list token))
    (reference_sentence : list token) : result (gset nat) :=
  foldlM (λ lcs_union sentence,
    lcs ← _lcs_elements sentence reference_sentence;
    Ok (lcs_union ∪ set_map (D := gset nat) snd lcs))
    ∅ summary_sentences.

(** The three variables the loops of [rouge_l_summary_level] update. *)
Record lcs_state : Type := LcsState {
  summary_unigrams : gmap (list token) Z;
  reference_unigrams : gmap (list token) Z;
  total_lcs_words : Z
}.

(** [c[k]] on a [Counter]: a missing key counts 0. *)
Definition counter_get (c : gmap (list token) Z) (k : list token) : Z :=
  default 0%Z (c !! k).

(** The body of [for word in lcs_union]. *)
Definition credit_word (reference : list token) (st : lcs_state)
    (word : nat) : result lcs_state :=
  w ← getitem reference word;
  let unigram := [w] in
  if decide (is_Some (summary_unigrams st !! unigram)
             ∧ is_Some (reference_unigrams st !! unigram)
             ∧ (0 < counter_get (summary_unigrams st) unigram)%Z
             ∧ (0 < counter_get (reference_unigrams st) unigram)%Z)
  then Ok {|
    summary_unigrams :=
      <[unigram := (counter_get (summary_unigrams st) unigram - 1)%Z]>
        (summary_unigrams st);
    reference_unigrams :=
      <[unigram := (counter_get (reference_unigrams st) unigram - 1)%Z]>
        (reference_unigrams st);
    total_lcs_words := (total_lcs_words st + 1)%Z |}
  else Ok st.

(** The body of [for reference in reference_sentences].  The model
    visits the set in the order of [elements], which need not be the order
    of a Python run; the state the loop ends in does not depend on the
    order (see [credit_words_perm]), and the states passed on the way are
    taken over every order (see [visited]). *)
Definition credit_reference (summary_sentences : list (list token))
    (st : lcs_state) (reference : list token) : result lcs_state :=
  lcs_union ← _make_lcs_union summary_sentences reference;
  foldlM (credit_word reference) st (elements lcs_union).

Definition rouge_l_summary_level__init (summary_sentences
    reference_sentences : list (list token)) : lcs_state :=
  {| summary_unigrams := _flatten_and_count_ngrams summary_sentences 1;
     reference_unigrams := _flatten_and_count_ngrams reference_sentences 1;
     total_lcs_words := 0 |}.

(** [sum(len(sentence) for sentence in sentences)]. *)
Definition sum_len (sentences : list (list token)) : Z :=
  foldl (λ acc sentence, (acc + len sentence)%Z) 0%Z sentences.

Definition rouge_l_summary_level (summary_sentences reference_sentences
    : list (list token)) (alpha : option R) : result score_triple :=
  st ← foldlM (credit_reference summary_sentences)
         (rouge_l_summary_level__init summary_sentences reference_sentences)
         reference_sentences;
  let r_denominator := sum_len reference_sentences in
  let p_denominator := sum_len summary_sentences in
  _f1_measure (IZR (total_lcs_words st)) (IZR r_denominator)
    (IZR p_denominator) alpha.

(** ** Weighted LCS engine *)

Definition _weight_fn (x : R) (weight : option R) (inverse : bool)
  : result R :=
  let weight := default DEFAULT_WEIGHT_FACTOR weight in
  if decide (1 < weight)%R then
    let weight := if inverse then (1 / weight)%R else weight in
    math_pow x weight
  else Raise (ValueError "weight must be > 1.0").

Definition _lcs_length_with_weight (x y : list token) (weight : option R)
  : result R :=
  let m := length x in
  let n := length y in
  '(weighted_len, consecutive_match) ←
    dp_loop m n (λ i j '(weighted_len, consecutive_match),
      if decide (i = 0 ∨ j = 0) then
        Ok (<[(i, j) := 0%R]> weighted_len,
            <[(i, j) := 0]> consecutive_match)
      else
        xi ← getitem x (i - 1);
        yj ← getitem y (j - 1);
        if decide (xi = yj) then
          k ← dict_get consecutive_match (i - 1, j - 1);
          w1 ← _weight_fn (INR (k + 1)) weight false;
          w0 ← _weight_fn (INR k) weight false;
          let update := (w1 - w0)%R in
          v ← dict_get weighted_len (i - 1, j - 1);
          Ok (<[(i, j) := (v + update)%R]> weighted_len,
              <[(i, j) := k + 1]> consecutive_match)
        else
          a ← dict_get weighted_len (i - 1, j);
          b ← dict_get weighted_len (i, j - 1);
          Ok (<[(i, j) := Rmax a b]> weighted_len,
              <[(i, j) := 0]> consecutive_match))
      (∅, ∅);
  dict_get weighted_len (m, n).

(** The inner function [compute] of [rouge_w_sentence_level]. *)
Definition rouge_w_sentence_level__compute (weight : option R) (n d : R)
  : result R :=
  wd ← _weight_fn d weight false;
  _weight_fn (_divide_or_zero n wd) weight true.

Definition rouge_w_sentence_level (summary_sentence reference_sentence
    : list token) (weight alpha : option R) : result score_triple :=
  numerator ← _lcs_length_with_weight summary_sentence reference_sentence
                weight;
  recall ← rouge_w_sentence_level__compute weight numerator
             (IZR (len reference_sentence));
  precision ← rouge_w_sentence_level__compute weight numerator
                (IZR (len summary_sentence));
  f1 ← _compute_f1_measure recall precision alpha;
  Ok (recall, precision, f1).

(** The body of [rouge_w_summary_level] is [pass]: the call returns
    [None], whatever its arguments. *)
Definition rouge_w_summary_level (summary_sentences reference_sentences
    : list (list token)) (weight alpha : option R)
  : result (option score_triple) :=
  Ok None.
End lcs.

#[global] Arguments lcs_state token {_ _}.

(** ** Reference recurrences

    The recurrences the three dynamic-programming tables are meant to
    satisfy, as functions of the cell coordinates.  The loops of the code
    are proved to fill their tables with these values. *)

Section recurrences.
Context {token : Type} `{Countable token}.

(** LCS length of the prefixes [x[:i]] and [y[:j]]. *)
Fixpoint lcs_rec (x y : list token) (i : nat) : nat → nat :=
  match i with
  | 0 => λ _, 0
  | S i' =>
      fix inner (j : nat) : nat :=
        match j with
        | 0 => 0
        | S j' =>
            if decide (x !! i' = y !! j') then lcs_rec x y i' j' + 1
            else lcs_rec x y i' (S j') `max` inner j'
        end
  end.

(** The trace direction of cell [(i, j)], for [i, j >= 1]. *)
Definition trace_rec (x y : list token) (i j : nat) : string :=
  if decide (x !! (i - 1) = y !! (j - 1)) then "d"
  else if decide (lcs_rec x y i (j - 1) < lcs_rec x y (i - 1) j) then "u"
  else "l".

(** What [_lcs_elements] expects of the trace entry of cell [(i, j)]:
    border cells carry none that matters. *)
Definition trace_cell (x y : list token) (i j : nat) (entry : option string)
  : Prop :=
  i ≠ 0 → j ≠ 0 → entry = Some (trace_rec x y i j).

(** Length of the run of consecutive matches ending at [(i, j)]. *)
Fixpoint run_rec (x y : list token) (i j : nat) : nat :=
  match i, j with
  | S i', S j' =>
      if decide (x !! i' = y !! j') then run_rec x y i' j' + 1 else 0
  | _, _ => 0
  end.

(** Weighted LCS length of the prefixes, for the weight function [w]. *)
Fixpoint wlcs_rec (w : nat → R) (x y : list token) (i : nat) : nat → R :=
  match i with
  | 0 => λ _, 0%R
  | S i' =>
      fix inner (j : nat) : R :=
        match j with
        | 0 => 0%R
        | S j' =>
            if decide (x !! i' = y !! j') then
              (wlcs_rec w x y i' j'
               + (w (run_rec x y i' j' + 1)%nat - w (run_rec x y i' j')))%R
            else Rmax (wlcs_rec w x y i' (S j')) (inner j')
        end
  end.
End recurrences.

(** A set of index pairs is an alignment of [x] and [y]: each pair
    joins two positions that hold the same token, and the pairs are
    strictly increasing in both coordinates at once. *)
Definition lcs_alignment {token : Type} (x y : list token)
    (pairs : gset (nat * nat)) : Prop :=
  (∀ a b, (a, b) ∈ pairs → ∃ t, x !! a = Some t ∧ y !! b = Some t)
  ∧ (∀ a b a' b', (a, b) ∈ pairs → (a', b') ∈ pairs → a < a' ↔ b < b').

(** A triple with recall and precision exchanged. *)
Definition swap_triple (t : score_triple) : score_triple :=
  let '(recall, precision, f1) := t in (precision, recall, f1).

(** Flattening as the specification words it: the sentences of a text
    concatenated in order, sentence boundaries dropped. *)
Fixpoint flatten {token : Type} (text : list (list token)) : list token :=
  match text with
  | [] => []
  | sentence :: rest => sentence ++ flatten rest
  end.

(** ** The states of summary-level ROUGE-L *)

Section summary_states.
Context {token : Type} `{Countable token}.

(** No count of either unigram counter is negative. *)
Definition counts_nonneg (st : lcs_state token) : Prop :=
  (∀ unigram count,
     summary_unigrams st !! unigram = Some count → (0 ≤ count)%Z)
  ∧ (∀ unigram count,
       reference_unigrams st !! unigram = Some count → (0 ≤ count)%Z).

(** What the loops of [rouge_l_summary_level] maintain: the counts are
    non-negative, and every credited word has been taken from both
    counters, which started with one count per token of their text. *)
Definition lcs_invariant (summary_sentences reference_sentences
    : list (list token)) (st : lcs_state token) : Prop :=
  counts_nonneg st
  ∧ (0 ≤ total_lcs_words st)%Z
  ∧ (total_lcs_words st + counter_sum (summary_unigrams st)
     = len (flatten summary_sentences))%Z
  ∧ (total_lcs_words st + counter_sum (reference_unigrams st)
     = len (flatten reference_sentences))%Z.

(** The states an execution of [rouge_l_summary_level] passes through:
    the state after the outer loop has finished some of the reference
    sentences, or the state after the inner loop has, in addition, handled
    some of the words of the union of the next one.  Python does not fix
    the order in which [for word in lcs_union] visits a set, so the words
    handled so far are the first ones of any ordering of the union, not
    only of [elements lcs_union]; the state a finished inner loop leaves
    is the same for every ordering ([credit_words_perm]). *)
Definition visited (summary_sentences reference_sentences
    : list (list token)) (st : lcs_state token) : Prop :=
  ∃ refs_done refs_todo st0,
    reference_sentences = refs_done ++ refs_todo
    ∧ foldlM (credit_reference summary_sentences)
        (rouge_l_summary_level__init summary_sentences reference_sentences)
        refs_done = Ok st0
    ∧ (st = st0
       ∨ ∃ reference refs_rest lcs_union words_done words_todo,
           refs_todo = reference :: refs_rest
           ∧ _make_lcs_union summary_sentences reference = Ok lcs_union
           ∧ words_done ++ words_todo ≡ₚ elements lcs_union
           ∧ foldlM (credit_word reference) st0 words_done = Ok st).
End summary_states.

(** The weight function [w(k) = k^p] on run lengths. *)
Definition weight_of (p : R) (k : nat) : R := real_pow (INR k) p.

(** [alpha] is [None] (the default 0.5) or lies in [[0, 1]]. *)
Definition valid_alpha (alpha : option R) : Prop :=
  (0 <= default (1 / 2) alpha ∧ default (1 / 2) alpha <= 1)%R.

(** [weight] is [None] (the default 1.2) or is greater than 1. *)
Definition valid_weight (weight : option R) : Prop :=
  (1 < default DEFAULT_WEIGHT_FACTOR weight)%R.

(** Every component of a score triple lies in [[0, 1]]. *)
Definition unit_triple (t : score_triple) : Prop :=
  let '(recall, precision, f1) := t in
  (0 <= recall <= 1 ∧ 0 <= precision <= 1 ∧ 0 <= f1 <= 1)%R.

(** Recall and precision lie in [[0, 1]] and the F-measure is not
    negative; for the default [alpha] of 0.5 the F-measure is at most 1
    too.  (For other values of [alpha] the quotient is at most 1 in exact
    arithmetic, but a rounded denominator can fall below the numerator, so
    the bound is not stated for them.) *)
Definition bounded_scores (alpha : option R) (t : score_triple) : Prop :=
  let '(recall, precision, f1) := t in
  (0 <= recall <= 1 ∧ 0 <= precision <= 1 ∧ 0 <= f1
   ∧ (default (1 / 2) alpha = 1 / 2 → f1 <= 1))%R.

(** No component of a score triple is negative. *)
Definition nonneg_triple (t : score_triple) : Prop :=
  let '(recall, precision, f1) := t in
  (0 <= recall ∧ 0 <= precision ∧ 0 <= f1)%R.

Section wlcs_outcomes.
Context {token : Type} `{Countable token}.

(** Some token of [x] is a token of [y]: the table of
    [_lcs_length_with_weight] has a match cell. *)
Definition has_match (x y : list token) : Prop :=
  ∃ i j t, x !! i = Some t ∧ y !! j = Some t.

(** Some match cell ends a run of consecutive matches whose weight is
    beyond the largest double. *)
Definition run_overflows (p : R) (x y : list token) : Prop :=
  ∃ i j t, x !! i = Some t ∧ y !! j = Some t
           ∧ (DBL_MAX < weight_of p (run_rec x y (S i) (S j)))%R.
End wlcs_outcomes.

(** The example pair of the module's demonstration script. *)
Definition example_summary_sentence : list string :=
  ["the"; "gunman"; "police"; "killed"].
Definition example_reference_sentence : list string :=
  ["the"; "police"; "killed"; "the"; "gunman"].

(** The state of [rouge_l_summary_level] on the summary
    [['the', 'police']] and the reference [['the', 'police']] after
    position 0 of the union [{0, 1}] has been credited and before position
    1 is: one word counted, the counts of 'the' at 0, those of 'police'
    still at 1.  An iteration that starts at position 0 passes through it;
    [elements] lists the union as [[1; 0]]. *)
Definition example_state : lcs_state string :=
  Eval vm_compute in
    match foldlM (credit_word ["the"; "police"])
            (rouge_l_summary_level__init [["the"; "police"]]
               [["the"; "police"]]) [0] with
    | Ok st => st
    | Raise _ =>
        rouge_l_summary_level__init [["the"; "police"]] [["the"; "police"]]
    end.

#[global] Arguments lcs_rec : simpl never.
#[global] Arguments run_rec : simpl never.
#[global] Arguments wlcs_rec : simpl never.

(** * Proofs *)

(** ** Loops *)

(** A counted loop whose iterations either carry [P k] to [P (S k)] or
    raise an exception in [E]: the loop establishes [P (start + count)]
    from [P start], or raises an exception in [E]. *)
Lemma foldlM_seq_inv_or {A : Type} (P : nat → A → Prop) (E : exn → Prop)
    (f : A → nat → result A) (count start : nat) (a : A) :
  P start a →
  (∀ k s, start ≤ k < start + count → P k s →
          (∃ s', f s k = Ok s' ∧ P (S k) s') ∨ (∃ e, f s k = Raise e ∧ E e)) →
  (∃ s', foldlM f a (seq start count) = Ok s' ∧ P (start + count) s')
  ∨ (∃ e, foldlM f a (seq start count) = Raise e ∧ E e).
Proof.
  revert start a. induction count as [|count IH]; intros start a Ha Hstep; simpl.
  - left. exists a. rewrite Nat.add_0_r. done.
  - destruct (Hstep start a) as [(s1 & -> & Hs1)|(e & -> & He)];
      [lia|done| |by right; exists e].
    simpl.
    destruct (IH (S start) s1) as [(s2 & -> & Hs2)|(e & -> & He)]; [done| | |].
    + intros k s Hk. apply Hstep. lia.
    + left. exists s2. split; [done|].
      by replace (start + S count) with (S start + count) by lia.
    + right. by exists e.
Qed.

(** A loop whose body preserves [P] whenever it returns ends in a state
    satisfying [P], if it returns. *)
Lemma foldlM_preserves {A B : Type} (P : A → Prop) (f : A → B → result A)
    (l : list B) (a a' : A) :
  P a → (∀ s b s', b ∈ l → P s → f s b = Ok s' → P s') →
  foldlM f a l = Ok a' → P a'.
Proof.
  revert a. induction l as [|b l IH]; intros a Ha Hstep; simpl.
  - by intros [= <-].
  - destruct (f a b) as [s1|] eqn:E; simpl; [|done].
    apply IH; [eapply Hstep; [left|done|done]|].
    intros s b' s' Hb'. apply Hstep. by right.
Qed.

(** The row-major order of [dp_loop]: when the body fills cell [(i, j)]
    from the cells before it, or raises an exception in [E], the loop
    returns a table with every cell filled, or raises an exception in
    [E]. *)
Lemma dp_loop_spec_or {St : Type} (Filled : nat → nat → St → Prop)
    (E : exn → Prop) (n m : nat) (body : nat → nat → St → result St)
    (s0 : St) :
  (∀ i j s, i ≤ n → j ≤ m →
     (∀ i' j', j' ≤ m → i' < i ∨ (i' = i ∧ j' < j) → Filled i' j' s) →
     (∃ s', body i j s = Ok s' ∧
        ∀ i' j', j' ≤ m → i' < i ∨ (i' = i ∧ j' ≤ j) → Filled i' j' s')
     ∨ (∃ e, body i j s = Raise e ∧ E e)) →
  (∃ s, dp_loop n m body s0 = Ok s ∧ ∀ i j, i ≤ n → j ≤ m → Filled i j s)
  ∨ (∃ e, dp_loop n m body s0 = Raise e ∧ E e).
Proof.
  intros Hbody. unfold dp_loop.
  destruct (foldlM_seq_inv_or
    (λ i s, ∀ i' j', j' ≤ m → i' < i → Filled i' j' s) E
    (λ s i, foldlM (λ s j, body i j s) s (seq 0 (m + 1))) (n + 1) 0 s0)
    as [(s & Hs & Hfill)|?]; [| | |by right].
  - intros; lia.
  - intros i s Hi Hrows.
    destruct (foldlM_seq_inv_or
      (λ j s, ∀ i' j', j' ≤ m → i' < i ∨ (i' = i ∧ j' < j) → Filled i' j' s)
      E (λ s j, body i j s) (m + 1) 0 s)
      as [(s' & Hs' & Hfill)|?]; [| | |by right].
    + intros i' j' Hj' [Hlt|[_ Hlt]]; [by apply Hrows|lia].
    + intros j s1 Hj Hcells.
      destruct (Hbody i j s1) as [(s2 & Hs2 & Hfill)|?];
        [lia|lia|done| |by right].
      left. exists s2. split; [done|].
      intros i' j' Hj' Hlt. apply Hfill; [done|]. lia.
    + left. exists s'. split; [done|].
      intros i' j' Hj' Hlt. apply Hfill; [done|]. lia.
  - left. exists s. split; [done|]. intros i j Hi Hj. apply Hfill; lia.
Qed.

(** The same for a body that always returns. *)
Lemma dp_loop_spec {St : Type} (Filled : nat → nat → St → Prop) (n m : nat)
    (body : nat → nat → St → result St) (s0 : St) :
  (∀ i j s, i ≤ n → j ≤ m →
     (∀ i' j', j' ≤ m → i' < i ∨ (i' = i ∧ j' < j) → Filled i' j' s) →
     ∃ s', body i j s = Ok s' ∧
       ∀ i' j', j' ≤ m → i' < i ∨ (i' = i ∧ j' ≤ j) → Filled i' j' s') →
  ∃ s, dp_loop n m body s0 = Ok s ∧ ∀ i j, i ≤ n → j ≤ m → Filled i j s.
Proof.
  intros Hbody.
  destruct (dp_loop_spec_or Filled (λ _, False) n m body s0)
    as [?|(? & _ & [])]; [|done].
  intros i j s Hi Hj Hprev. left. by apply Hbody.
Qed.

Lemma getitem_lt {A : Type} (xs : list A) (i : nat) :
  i < length xs → ∃ a, xs !! i = Some a ∧ getitem xs i = Ok a.
Proof.
  intros Hi. destruct (lookup_lt_is_Some_2 xs i Hi) as [a Ha].
  exists a. unfold getitem. by rewrite Ha.
Qed.

(** Writing cell [(i, j)] keeps the earlier cells and adds this one. *)
Lemma fill_cell {V : Type} (spec : nat → nat → V) (s : gmap (nat * nat) V)
    (i j m : nat) (v : V) :
  (∀ i' j', j' ≤ m → i' < i ∨ (i' = i ∧ j' < j) →
            s !! (i', j') = Some (spec i' j')) →
  v = spec i j →
  ∀ i' j', j' ≤ m → i' < i ∨ (i' = i ∧ j' ≤ j) →
           <[(i, j) := v]> s !! (i', j') = Some (spec i' j').
Proof.
  intros Hprev -> i' j' Hj' Hle.
  destruct (decide ((i, j) = (i', j'))) as [[= <- <-]|Hne].
  - by rewrite lookup_insert_eq.
  - rewrite lookup_insert_ne by done. apply Hprev; [done|].
    destruct Hle as [?|[-> Hle]]; [by left|right]. split; [done|].
    destruct (decide (j' = j)) as [->|]; [done|lia].
Qed.

(** The same for a table whose cells are constrained by a predicate on
    the entry: writing a cell, and passing over one. *)
Lemma fill_cell_pred {V : Type} (P : nat → nat → option V → Prop)
    (s : gmap (nat * nat) V) (i j m : nat) (v : V) :
  (∀ i' j', j' ≤ m → i' < i ∨ (i' = i ∧ j' < j) → P i' j' (s !! (i', j'))) →
  P i j (Some v) →
  ∀ i' j', j' ≤ m → i' < i ∨ (i' = i ∧ j' ≤ j) →
           P i' j' (<[(i, j) := v]> s !! (i', j')).
Proof.
  intros Hprev Hv i' j' Hj' Hle.
  destruct (decide ((i, j) = (i', j'))) as [[= <- <-]|Hne].
  - by rewrite lookup_insert_eq.
  - rewrite lookup_insert_ne by done. apply Hprev; [done|].
    destruct Hle as [?|[-> Hle]]; [by left|right]. split; [done|].
    destruct (decide (j' = j)) as [->|]; [done|lia].
Qed.

Lemma skip_cell_pred {V : Type} (P : nat → nat → option V → Prop)
    (s : gmap (nat * nat) V) (i j m : nat) :
  (∀ i' j', j' ≤ m → i' < i ∨ (i' = i ∧ j' < j) → P i' j' (s !! (i', j'))) →
  P i j (s !! (i, j)) →
  ∀ i' j', j' ≤ m → i' < i ∨ (i' = i ∧ j' ≤ j) → P i' j' (s !! (i', j')).
Proof.
  intros Hprev Hv i' j' Hj' Hle.
  destruct (decide ((i, j) = (i', j'))) as [[= <- <-]|Hne]; [done|].
  apply Hprev; [done|].
  destruct Hle as [?|[-> Hle]]; [by left|right]. split; [done|].
  destruct (decide (j' = j)) as [->|]; [done|lia].
Qed.

(** A property of the coordinates alone carries over in the same way. *)
Lemma fill_cell_prop (Q : nat → nat → Prop) (i j m : nat) :
  (∀ i' j', j' ≤ m → i' < i ∨ (i' = i ∧ j' < j) → Q i' j') →
  Q i j →
  ∀ i' j', j' ≤ m → i' < i ∨ (i' = i ∧ j' ≤ j) → Q i' j'.
Proof.
  intros Hprev Hv i' j' Hj' Hle.
  destruct (decide ((i, j) = (i', j'))) as [[= <- <-]|Hne]; [done|].
  apply Hprev; [done|].
  destruct Hle as [?|[-> Hle]]; [by left|right]. split; [done|].
  destruct (decide (j' = j)) as [->|]; [done|lia].
Qed.

(** ** LCS engine *)

Section lcs_proofs.
Context {token : Type} `{Countable token}.
Implicit Types x y : list token.

Lemma lcs_rec_S x y i j :
  lcs_rec x y (S i) (S j) =
    if decide (x !! i = y !! j) then lcs_rec x y i j + 1
    else lcs_rec x y i (S j) `max` lcs_rec x y (S i) j.
Proof. reflexivity. Qed.

Lemma lcs_rec_0_r x y i : lcs_rec x y i 0 = 0.
Proof. by destruct i. Qed.

Lemma lcs_rec_0 x y i j : i = 0 ∨ j = 0 → lcs_rec x y i j = 0.
Proof. intros [->| ->]; [done|apply lcs_rec_0_r]. Qed.

(** The loop of [_lcs_length] returns, and fills every cell with the
    value of the recurrence. *)
Lemma _lcs_length__compute_lcs_table_spec x y :
  ∃ table, _lcs_length__compute_lcs_table x y = Ok table ∧
    ∀ i j, i ≤ length x → j ≤ length y →
           table !! (i, j) = Some (lcs_rec x y i j).
Proof.
  unfold _lcs_length__compute_lcs_table.
  apply (dp_loop_spec (λ i j t, t !! (i, j) = Some (lcs_rec x y i j))).
  intros i j s Hi Hj Hprev.
  destruct (decide (i = 0 ∨ j = 0)) as [Hz|Hnz].
  { eexists; split; [done|].
    apply (fill_cell (lcs_rec x y)); [done|]. by rewrite lcs_rec_0. }
  destruct i as [|i]; [tauto|]. destruct j as [|j]; [tauto|].
  simpl. rewrite !Nat.sub_0_r.
  destruct (getitem_lt x i) as (xi & Hxi & ->); [lia|].
  destruct (getitem_lt y j) as (yj & Hyj & ->); [lia|]. simpl.
  destruct (decide (xi = yj)) as [Heq|Hne].
  - unfold dict_get. rewrite (Hprev i j) by lia. simpl.
    eexists; split; [done|].
    apply (fill_cell (lcs_rec x y)); [done|].
    rewrite lcs_rec_S, Hxi, Hyj, decide_True; [done|by f_equal].
  - unfold dict_get.
    rewrite (Hprev i (S j)), (Hprev (S i) j) by lia. simpl.
    eexists; split; [done|].
    apply (fill_cell (lcs_rec x y)); [done|].
    rewrite lcs_rec_S, Hxi, Hyj, decide_False; [done|congruence].
Qed.

Lemma _lcs_length_spec x y :
  _lcs_length x y = Ok (lcs_rec x y (length x) (length y)).
Proof.
  unfold _lcs_length.
  destruct (_lcs_length__compute_lcs_table_spec x y) as (table & -> & Ht).
  simpl. unfold dict_get. by rewrite Ht.
Qed.

(** The loop of [_lcs_elements] returns; its length table holds the
    recurrence and its trace table the direction of every inner cell. *)
Lemma _lcs_elements__tables_spec x y :
  ∃ tables,
    _lcs_elements__tables x y = Ok tables ∧
    ∀ i j, i ≤ length x → j ≤ length y →
           tables.1 !! (i, j) = Some (lcs_rec x y i j)
           ∧ trace_cell x y i j (tables.2 !! (i, j)).
Proof.
  unfold _lcs_elements__tables.
  apply (dp_loop_spec
    (λ i j (s : gmap (nat * nat) nat * gmap (nat * nat) string),
       s.1 !! (i, j) = Some (lcs_rec x y i j)
       ∧ trace_cell x y i j (s.2 !! (i, j)))).
  intros i j [lt tt] Hi Hj Hprev.
  assert (∀ i' j', j' ≤ length y → i' < i ∨ i' = i ∧ j' < j →
                   lt !! (i', j') = Some (lcs_rec x y i' j')) as Hlt
    by (intros; by apply Hprev).
  assert (∀ i' j', j' ≤ length y → i' < i ∨ i' = i ∧ j' < j →
                   trace_cell x y i' j' (tt !! (i', j'))) as Htt
    by (intros; by apply Hprev).
  clear Hprev.
  destruct (decide (i = 0 ∨ j = 0)) as [Hz|Hnz].
  { eexists (_, _); split; [done|]. intros i' j' Hj' Hle. split.
    - apply (fill_cell (lcs_rec x y)) with (m := length y); try done.
      by rewrite lcs_rec_0.
    - apply (skip_cell_pred (trace_cell x y)) with (i := i) (j := j)
        (m := length y); try done.
      intros ??. lia. }
  destruct i as [|i]; [tauto|]. destruct j as [|j]; [tauto|].
  simpl. rewrite !Nat.sub_0_r.
  destruct (getitem_lt x i) as (xi & Hxi & ->); [lia|].
  destruct (getitem_lt y j) as (yj & Hyj & ->); [lia|]. simpl.
  destruct (decide (xi = yj)) as [Heq|Hne].
  - unfold dict_get. rewrite (Hlt i j) by lia. simpl.
    eexists (_, _); split; [done|]. intros i' j' Hj' Hle. split.
    + apply (fill_cell (lcs_rec x y)) with (m := length y); try done.
      rewrite lcs_rec_S, Hxi, Hyj, decide_True; [done|by f_equal].
    + apply (fill_cell_pred (trace_cell x y)) with (m := length y); try done.
      intros _ _. unfold trace_rec. simpl. rewrite !Nat.sub_0_r.
      rewrite Hxi, Hyj, decide_True; [done|by f_equal].
  - unfold dict_get.
    rewrite (Hlt i (S j)), (Hlt (S i) j) by lia. simpl.
    assert (x !! i ≠ y !! j) as Hne' by congruence.
    destruct (decide (lcs_rec x y (S i) j < lcs_rec x y i (S j))) as [Hup|Hup].
    + eexists (_, _); split; [done|]. intros i' j' Hj' Hle. split.
      * apply (fill_cell (lcs_rec x y)) with (m := length y); try done.
        rewrite lcs_rec_S, decide_False by done. lia.
      * apply (fill_cell_pred (trace_cell x y)) with (m := length y);
          try done.
        intros _ _. unfold trace_rec. simpl. rewrite !Nat.sub_0_r.
        by rewrite decide_False, decide_True.
    + eexists (_, _); split; [done|]. intros i' j' Hj' Hle. split.
      * apply (fill_cell (lcs_rec x y)) with (m := length y); try done.
        rewrite lcs_rec_S, decide_False by done. lia.
      * apply (fill_cell_pred (trace_cell x y)) with (m := length y);
          try done.
        intros _ _. unfold trace_rec. simpl. rewrite !Nat.sub_0_r.
        by rewrite !decide_False.
Qed.

Lemma lcs_rec_sym x y i j : lcs_rec x y i j = lcs_rec y x j i.
Proof.
  revert j. induction i as [|i IHi]; intros j.
  - by rewrite lcs_rec_0_r.
  - induction j as [|j IHj]; [done|].
    rewrite !lcs_rec_S, IHi, IHj, (IHi (S j)).
    destruct (decide (x !! i = y !! j)), (decide (y !! j = x !! i));
      try congruence; apply Nat.max_comm.
Qed.

Lemma lcs_rec_le x y i j : lcs_rec x y i j ≤ i `min` j.
Proof.
  revert j. induction i as [|i IHi]; intros j; [by rewrite lcs_rec_0; auto|].
  induction j as [|j IHj]; [by rewrite lcs_rec_0; auto|].
  rewrite lcs_rec_S. pose proof (IHi j). pose proof (IHi (S j)).
  destruct (decide (x !! i = y !! j)); lia.
Qed.

Lemma lcs_rec_diag x i : i ≤ length x → lcs_rec x x i i = i.
Proof.
  induction i as [|i IH]; [done|]. intros Hi.
  rewrite lcs_rec_S, decide_True by done. rewrite IH; lia.
Qed.
End lcs_proofs.

(** ** Score combinator *)

Section score_proofs.
Local Open Scope R_scope.

Lemma _divide_or_zero_0_r a : _divide_or_zero a 0 = 0.
Proof. unfold _divide_or_zero. by rewrite decide_True. Qed.

Lemma _divide_or_zero_0_l b : _divide_or_zero 0 b = 0.
Proof. unfold _divide_or_zero. case_decide; [done|]. unfold Rdiv. ring. Qed.

Lemma _divide_or_zero_ne a b : b ≠ 0 → _divide_or_zero a b = a / b.
Proof. intros Hb. unfold _divide_or_zero. by rewrite decide_False. Qed.

Lemma _divide_or_zero_self a : a ≠ 0 → _divide_or_zero a a = 1.
Proof. intros Ha. rewrite _divide_or_zero_ne by done. by field. Qed.

Lemma _divide_or_zero_unit a b :
  0 <= a <= b → 0 <= _divide_or_zero a b <= 1.
Proof.
  intros [Ha Hab]. unfold _divide_or_zero. case_decide; [lra|].
  assert (0 < / b) by (apply Rinv_0_lt_compat; lra).
  unfold Rdiv. split; [apply Rmult_le_pos; lra|].
  replace 1 with (b * / b) by (by field). apply Rmult_le_compat_r; lra.
Qed.

Lemma _compute_f1_measure_valid recall precision alpha :
  valid_alpha alpha →
  _compute_f1_measure recall precision alpha =
    Ok (_divide_or_zero (precision * recall)
          ((1 - default (1 / 2) alpha) * precision
           + default (1 / 2) alpha * recall)).
Proof. intros Ha. unfold _compute_f1_measure. by rewrite decide_True. Qed.

Lemma _compute_f1_measure_invalid recall precision alpha :
  ¬ valid_alpha alpha →
  _compute_f1_measure recall precision alpha =
    Raise (ValueError "alpha must be between [0, 1]").
Proof. intros Ha. unfold _compute_f1_measure. by rewrite decide_False. Qed.

(** The F-measure of a recall and a precision in [[0, 1]] is in [[0, 1]]:
    their product is at most either, so at most any weighted mean. *)
Lemma _compute_f1_measure_unit recall precision alpha :
  valid_alpha alpha → 0 <= recall <= 1 → 0 <= precision <= 1 →
  ∃ f1, _compute_f1_measure recall precision alpha = Ok f1 ∧ 0 <= f1 <= 1.
Proof.
  intros Ha Hr Hp. rewrite _compute_f1_measure_valid by done.
  eexists; split; [done|]. destruct Ha as [Ha0 Ha1].
  apply _divide_or_zero_unit. split; [apply Rmult_le_pos; lra|].
  set (a := default (1 / 2) alpha) in *.
  assert (precision * recall <= precision) by nra.
  assert (precision * recall <= recall) by nra.
  nra.
Qed.

Lemma _f1_measure_unit numerator r_denominator p_denominator alpha :
  valid_alpha alpha →
  0 <= numerator <= r_denominator → numerator <= p_denominator →
  ∃ t, _f1_measure numerator r_denominator p_denominator alpha = Ok t
       ∧ unit_triple t.
Proof.
  intros Ha Hr Hp. unfold _f1_measure.
  pose proof (_divide_or_zero_unit numerator r_denominator Hr) as Hrecall.
  assert (0 <= _divide_or_zero numerator p_denominator <= 1) as Hprecision
    by (apply _divide_or_zero_unit; lra).
  destruct (_compute_f1_measure_unit _ _ alpha Ha Hrecall Hprecision)
    as (f1 & -> & Hf1).
  eexists; split; [done|]. simpl. tauto.
Qed.

Lemma _f1_measure_invalid numerator r_denominator p_denominator alpha :
  ¬ valid_alpha alpha →
  _f1_measure numerator r_denominator p_denominator alpha =
    Raise (ValueError "alpha must be between [0, 1]").
Proof.
  intros Ha. unfold _f1_measure. by rewrite _compute_f1_measure_invalid.
Qed.

(** A perfect match: equal non-zero numerator and denominators. *)
Lemma _f1_measure_perfect k alpha :
  valid_alpha alpha → k ≠ 0 → _f1_measure k k k alpha = Ok (1, 1, 1).
Proof.
  intros Ha Hk. unfold _f1_measure.
  rewrite _divide_or_zero_self, _compute_f1_measure_valid by done. simpl.
  rewrite _divide_or_zero_ne by lra. do 2 f_equal. field. lra.
Qed.

(** No match at all: a zero numerator. *)
Lemma _f1_measure_zero r_denominator p_denominator alpha :
  valid_alpha alpha →
  _f1_measure 0 r_denominator p_denominator alpha = Ok (0, 0, 0).
Proof.
  intros Ha. unfold _f1_measure.
  rewrite !_divide_or_zero_0_l, _compute_f1_measure_valid by done. simpl.
  by rewrite Rmult_0_l, _divide_or_zero_0_l.
Qed.
End score_proofs.

(** ** Sentence-level ROUGE-L *)

Section rouge_l_sentence.
Context {token : Type} `{Countable token}.
Implicit Types x y : list token.

(** C9: for every pair of sequences, the LCS length computation is
    symmetric, [_lcs_length x y = _lcs_length y x], and it returns a
    length that is at most [min (len x) (len y)]. *)
Theorem lcs_length_symmetric_and_bounded x y :
  _lcs_length x y = _lcs_length y x
  ∧ ∃ v, _lcs_length x y = Ok v ∧ v ≤ length x `min` length y.
Proof.
  rewrite !_lcs_length_spec. split.
  - f_equal. apply lcs_rec_sym.
  - eexists; split; [done|]. apply lcs_rec_le.
Qed.

Lemma _lcs_length_self x : _lcs_length x x = Ok (length x).
Proof. rewrite _lcs_length_spec. f_equal. by apply lcs_rec_diag. Qed.

(** C10: for every non-empty token sequence [x] and every [alpha] in
    [[0, 1]], [rouge_l_sentence_level x x alpha] returns the triple
    [(1.0, 1.0, 1.0)]. *)
Theorem rouge_l_sentence_level_self x alpha :
  x ≠ [] → valid_alpha alpha →
  rouge_l_sentence_level x x alpha = Ok (1, 1, 1)%R.
Proof.
  intros Hx Ha. unfold rouge_l_sentence_level.
  rewrite _lcs_length_self. simpl. unfold len. rewrite <- INR_IZR_INZ.
  apply _f1_measure_perfect; [done|].
  apply not_0_INR. by destruct x.
Qed.
End rouge_l_sentence.

Lemma rouge_l_sentence_level_self_witness :
  ["the"; "gunman"] ≠ [] ∧ valid_alpha (Some (1 / 4)%R)
  ∧ rouge_l_sentence_level ["the"; "gunman"] ["the"; "gunman"]
      (Some (1 / 4)%R) = Ok (1, 1, 1)%R.
Proof.
  assert (valid_alpha (Some (1 / 4)%R)) as Ha
    by (unfold valid_alpha; simpl; lra).
  split; [done|]. split; [done|].
  by apply rouge_l_sentence_level_self.
Defined.

Lemma example_lcs_length :
  _lcs_length example_summary_sentence example_reference_sentence = Ok 3.
Proof. vm_compute. reflexivity. Qed.

Lemma rouge_l_sentence_level_example_scores alpha t :
  rouge_l_sentence_level example_summary_sentence example_reference_sentence
    alpha = Ok t →
  t.1.1 = (3 / 5)%R ∧ t.1.2 = (3 / 4)%R.
Proof.
  unfold rouge_l_sentence_level. rewrite example_lcs_length. simpl.
  unfold _f1_measure.
  destruct (_compute_f1_measure _ _ alpha) as [f1|]; simpl; [|done].
  intros [= <-]. simpl.
  change (len example_reference_sentence) with 5%Z.
  change (len example_summary_sentence) with 4%Z.
  rewrite !_divide_or_zero_ne by lra. lra.
Qed.

(** C2, as stated, fails: on the example pair the LCS length is not 2, and
    whatever [alpha] is the returned recall is not 2/5 and the returned
    precision is not 2/4. *)
Lemma rouge_l_sentence_level_example_not_2 :
  _lcs_length example_summary_sentence example_reference_sentence ≠ Ok 2
  ∧ ∀ alpha t,
      rouge_l_sentence_level example_summary_sentence
        example_reference_sentence alpha = Ok t →
      t.1.1 ≠ (2 / 5)%R ∧ t.1.2 ≠ (2 / 4)%R.
Proof.
  split; [by rewrite example_lcs_length|].
  intros alpha t Ht.
  destruct (rouge_l_sentence_level_example_scores alpha t Ht) as [-> ->].
  split; lra.
Qed.

(** C2, amended: for summary ['the','gunman','police','killed'] and
    reference ['the','police','killed','the','gunman'] the LCS length
    computed by [rouge_l_sentence_level] is 3 ("the police killed"), so
    with the default [alpha] the returned recall is 3/5 = 0.6, the
    precision is 3/4 = 0.75 and the F-measure is 2/3. *)
Theorem rouge_l_sentence_level_example :
  _lcs_length example_summary_sentence example_reference_sentence = Ok 3
  ∧ rouge_l_sentence_level example_summary_sentence
      example_reference_sentence None = Ok (3 / 5, 3 / 4, 2 / 3)%R.
Proof.
  split; [apply example_lcs_length|].
  unfold rouge_l_sentence_level. rewrite example_lcs_length. simpl.
  change (len example_reference_sentence) with 5%Z.
  change (len example_summary_sentence) with 4%Z.
  unfold _f1_measure.
  rewrite _compute_f1_measure_valid by (unfold valid_alpha; simpl; lra).
  simpl. rewrite !(_divide_or_zero_ne (1 + 1 + 1)) by lra.
  rewrite _divide_or_zero_ne by lra.
  do 2 f_equal; [f_equal|]; field.
Qed.

(** ** The trace table of the LCS backtrace *)

Section trace_table.
Context {token : Type} `{Countable token}.
Implicit Types x y : list token.

(** C3, amended: the trace table is built, and whenever an inner cell is
    not a token match and the value of the up-neighbour equals the value
    of the left-neighbour, the recorded direction is 'l' (left); 'u' (up)
    is recorded exactly when the up-neighbour's value is strictly
    larger. *)
Theorem trace_table_tie_goes_left x y :
  ∃ len_table trace_table,
    _lcs_elements__tables x y = Ok (len_table, trace_table) ∧
    ∀ i j, 1 ≤ i ≤ length x → 1 ≤ j ≤ length y →
      x !! (i - 1) ≠ y !! (j - 1) →
      (len_table !! (i - 1, j) = len_table !! (i, j - 1) →
       trace_table !! (i, j) = Some "l")
      ∧ (trace_table !! (i, j) = Some "u" ↔
         ∃ up left, len_table !! (i - 1, j) = Some up
                    ∧ len_table !! (i, j - 1) = Some left ∧ left < up).
Proof.
  destruct (_lcs_elements__tables_spec x y) as ([lt tt] & Hs & Hfill).
  exists lt, tt. split; [done|]. simpl in Hfill.
  intros i j Hi Hj Hne.
  destruct (Hfill i j) as [_ Htt]; [lia|lia|].
  destruct (Hfill (i - 1) j) as [Hup _]; [lia|lia|].
  destruct (Hfill i (j - 1)) as [Hleft _]; [lia|lia|].
  rewrite Htt, Hup, Hleft by lia. unfold trace_rec.
  rewrite decide_False by done. split.
  - intros [= Heq]. rewrite decide_False; [done|lia].
  - case_decide; split; try done.
    + intros _. eauto.
    + intros (up & left & [= <-] & [= <-] & ?). lia.
Qed.
End trace_table.

(** C3, as stated, fails: for x = ['a'] and y = ['b'] the cell (1, 1) is
    not a token match, its up- and left-neighbours hold the same value, and
    the recorded direction is 'l', not 'u'. *)
Lemma trace_table_tie_not_up :
  ∃ len_table trace_table,
    _lcs_elements__tables ["a"] ["b"] = Ok (len_table, trace_table)
    ∧ ["a"] !! 0 ≠ ["b"] !! 0
    ∧ len_table !! (0, 1) = len_table !! (1, 0)
    ∧ trace_table !! (1, 1) = Some "l"
    ∧ trace_table !! (1, 1) ≠ Some "u".
Proof.
  eexists _, _. split; [vm_compute; reflexivity|].
  repeat split; vm_compute; congruence.
Qed.

(** ** Summary-level ROUGE-W *)

(** C1: [rouge_w_summary_level] has no body; for every list of summary
    sentences, list of reference sentences, weight and alpha it returns
    [None], so no call of it returns a score triple. *)
Theorem rouge_w_summary_level_returns_none {token : Type} `{Countable token}
    (summary_sentences reference_sentences : list (list token))
    (weight alpha : option R) :
  rouge_w_summary_level summary_sentences reference_sentences weight alpha
    = Ok None
  ∧ ∀ t : score_triple,
      rouge_w_summary_level summary_sentences reference_sentences weight alpha
        ≠ Ok (Some t).
Proof. split; [done|]. intros t. discriminate. Qed.

(** ** Counters *)

Section counter_proofs.
Context {K : Type} `{Countable K}.
Implicit Types c : gmap K Z.
Local Open Scope Z_scope.

Lemma counter_sum_empty : counter_sum (∅ : gmap K Z) = 0.
Proof. apply map_fold_empty. Qed.

Lemma counter_sum_insert_None c k v :
  c !! k = None → counter_sum (<[k := v]> c) = counter_sum c + v.
Proof.
  intros Hk. unfold counter_sum.
  rewrite map_fold_insert_L; [done| |done]. intros; lia.
Qed.

Lemma counter_sum_delete c k v :
  c !! k = Some v → counter_sum c = counter_sum (delete k c) + v.
Proof.
  intros Hk. rewrite <- (insert_delete_id c k v) at 1 by done.
  apply counter_sum_insert_None, lookup_delete_eq.
Qed.

Lemma counter_sum_insert c k v :
  counter_sum (<[k := v]> c) = counter_sum c - default 0 (c !! k) + v.
Proof.
  destruct (c !! k) as [old|] eqn:Hk; simpl.
  - rewrite (counter_sum_delete c k old) by done.
    rewrite <- insert_delete_eq.
    rewrite counter_sum_insert_None by apply lookup_delete_eq. lia.
  - rewrite counter_sum_insert_None by done. lia.
Qed.

Lemma counter_sum_nonneg c :
  (∀ k, 0 ≤ default 0 (c !! k)) → 0 ≤ counter_sum c.
Proof.
  induction c as [|k v c Hk IH] using map_ind; intros Hc.
  - by rewrite counter_sum_empty.
  - rewrite counter_sum_insert_None by done.
    pose proof (Hc k) as Hv. rewrite lookup_insert_eq in Hv. simpl in Hv.
    assert (0 ≤ counter_sum c); [|lia].
    apply IH. intros k'. destruct (decide (k = k')) as [<-|Hne].
    + by rewrite Hk.
    + specialize (Hc k'). by rewrite lookup_insert_ne in Hc.
Qed.

(** A counter that is pointwise below another has the smaller sum. *)
Lemma counter_sum_mono c1 c2 :
  (∀ k, default 0 (c1 !! k) ≤ default 0 (c2 !! k)) →
  counter_sum c1 ≤ counter_sum c2.
Proof.
  revert c2. induction c1 as [|k v c1 Hk IH] using map_ind; intros c2 Hle.
  - rewrite counter_sum_empty. apply counter_sum_nonneg.
    intros k. specialize (Hle k). by rewrite lookup_empty in Hle.
  - rewrite counter_sum_insert_None by done.
    pose proof (Hle k) as Hv. rewrite lookup_insert_eq in Hv. simpl in Hv.
    assert (∀ k', k ≠ k' → default 0 (c1 !! k') ≤ default 0 (c2 !! k'))
      as Hrest.
    { intros k' Hne. specialize (Hle k'). by rewrite lookup_insert_ne in Hle. }
    destruct (c2 !! k) as [v2|] eqn:Hk2; simpl in Hv.
    + rewrite (counter_sum_delete c2 k v2) by done.
      assert (counter_sum c1 ≤ counter_sum (delete k c2)); [|lia].
      apply IH. intros k'. destruct (decide (k = k')) as [<-|Hne].
      * by rewrite Hk, lookup_delete_eq.
      * rewrite lookup_delete_ne by done. by apply Hrest.
    + assert (counter_sum c1 ≤ counter_sum c2); [|lia].
      apply IH. intros k'. destruct (decide (k = k')) as [<-|Hne].
      * by rewrite Hk, Hk2.
      * by apply Hrest.
Qed.

(** The loop of [Counter], from any counter: it adds one per element and
    keeps the counts positive. *)
Lemma Counter_loop_sum (elems : list K) c :
  counter_sum (foldl (λ c k, <[k := default 0 (c !! k) + 1]> c) c elems)
  = counter_sum c + Z.of_nat (length elems).
Proof.
  revert c. induction elems as [|k elems IH]; intros c; simpl; [lia|].
  rewrite IH, counter_sum_insert. lia.
Qed.

Lemma Counter_loop_pos (elems : list K) c :
  (∀ k v, c !! k = Some v → 0 < v) →
  ∀ k v, foldl (λ c k, <[k := default 0 (c !! k) + 1]> c) c elems !! k
         = Some v → 0 < v.
Proof.
  revert c. induction elems as [|k0 elems IH]; intros c Hc; simpl; [done|].
  apply IH. intros k v. destruct (decide (k0 = k)) as [<-|Hne].
  - rewrite lookup_insert_eq. intros [= <-].
    destruct (c !! k0) as [v0|] eqn:Hk0; simpl; [|lia].
    specialize (Hc k0 v0 Hk0). lia.
  - rewrite lookup_insert_ne by done. apply Hc.
Qed.

Lemma Counter_sum (elems : list K) :
  counter_sum (Counter elems) = Z.of_nat (length elems).
Proof. unfold Counter. by rewrite Counter_loop_sum, counter_sum_empty. Qed.

Lemma Counter_pos (elems : list K) k v :
  Counter elems !! k = Some v → 0 < v.
Proof. apply Counter_loop_pos. intros ??. by rewrite lookup_empty. Qed.

Lemma Counter_nonneg (elems : list K) k :
  0 ≤ default 0 (Counter elems !! k).
Proof.
  destruct (Counter elems !! k) as [v|] eqn:Hk; simpl; [|done].
  apply Counter_pos in Hk. lia.
Qed.

Lemma counter_and_lookup (a b : gmap K Z) k :
  (∀ k, 0 ≤ default 0 (a !! k)) → (∀ k, 0 ≤ default 0 (b !! k)) →
  0 ≤ default 0 (counter_and a b !! k)
  ∧ default 0 (counter_and a b !! k) ≤ default 0 (a !! k)
  ∧ default 0 (counter_and a b !! k) ≤ default 0 (b !! k).
Proof.
  intros Ha Hb. specialize (Ha k). specialize (Hb k).
  unfold counter_and. rewrite lookup_intersection_with.
  destruct (a !! k) as [ca|], (b !! k) as [cb|]; simpl in *; try lia.
  unfold intersection_with, option_intersection_with.
  destruct (Z.ltb_spec ca cb) as [Hlt|Hge].
  - destruct (Z.ltb_spec 0 ca); simpl; lia.
  - destruct (Z.ltb_spec 0 cb); simpl; lia.
Qed.

(** The clipped overlap of two tallies is at most the size of either. *)
Lemma counter_and_sum (xs ys : list K) :
  0 ≤ counter_sum (counter_and (Counter xs) (Counter ys))
  ∧ counter_sum (counter_and (Counter xs) (Counter ys)) ≤ Z.of_nat (length xs)
  ∧ counter_sum (counter_and (Counter xs) (Counter ys)) ≤ Z.of_nat (length ys).
Proof.
  pose proof (λ k, counter_and_lookup (Counter xs) (Counter ys) k
                     (Counter_nonneg xs) (Counter_nonneg ys)) as Hk.
  split; [|split].
  - apply counter_sum_nonneg. intros k. apply Hk.
  - rewrite <- (Counter_sum xs). apply counter_sum_mono. intros k. apply Hk.
  - rewrite <- (Counter_sum ys). apply counter_sum_mono. intros k. apply Hk.
Qed.
End counter_proofs.

(** ** ROUGE-N *)

Section rouge_n_proofs.
Context {token : Type} `{Countable token}.
Implicit Types words : list token.
Implicit Types text : list (list token).

Lemma _flatten_sentences_loop text (tokens : list token) :
  foldl (λ tokens sentence,
           foldl (λ tokens word, tokens ++ [word]) tokens sentence)
    tokens text = tokens ++ flatten text.
Proof.
  revert tokens. induction text as [|sentence text IH]; intros tokens; simpl.
  - by rewrite app_nil_r.
  - rewrite IH, app_assoc. f_equal.
    clear IH. revert tokens.
    induction sentence as [|word sentence IH]; intros tokens; simpl.
    + by rewrite app_nil_r.
    + by rewrite IH, <- app_assoc.
Qed.

(** The code's flattening is the specification's. *)
Lemma _flatten_sentences_flatten text : _flatten_sentences text = flatten text.
Proof. apply (_flatten_sentences_loop text []). Qed.

Lemma _num_ngrams_nonneg words n : (0 ≤ _num_ngrams words n)%Z.
Proof. unfold _num_ngrams. lia. Qed.

Lemma _get_ngram_length words n :
  Z.of_nat (length (_get_ngram words n)) = _num_ngrams words n.
Proof.
  unfold _get_ngram, range. rewrite !length_fmap, length_seq.
  pose proof (_num_ngrams_nonneg words n). lia.
Qed.

(** The clipped match count lies between 0 and either n-gram count. *)
Lemma _clipped_ngram_count_bounds (summary reference : list token) n :
  let total_matches :=
    _clipped_ngram_count (_count_ngrams summary n) (_count_ngrams reference n)
  in (0 ≤ total_matches ∧ total_matches ≤ _num_ngrams summary n
      ∧ total_matches ≤ _num_ngrams reference n)%Z.
Proof.
  unfold _clipped_ngram_count, _count_ngrams.
  rewrite <- !_get_ngram_length. apply counter_and_sum.
Qed.

Lemma rouge_n_sentence_level_unit (summary reference : list token) n alpha :
  valid_alpha alpha →
  ∃ t, rouge_n_sentence_level summary reference n alpha = Ok t
       ∧ unit_triple t.
Proof.
  intros Ha. unfold rouge_n_sentence_level.
  destruct (_clipped_ngram_count_bounds summary reference n) as (H0 & Hs & Hr).
  apply _f1_measure_unit; [done| |by apply IZR_le].
  split; by apply IZR_le.
Qed.

Lemma rouge_n_sentence_level_invalid (summary reference : list token) n alpha :
  ¬ valid_alpha alpha →
  rouge_n_sentence_level summary reference n alpha =
    Raise (ValueError "alpha must be between [0, 1]").
Proof. intros Ha. by apply _f1_measure_invalid. Qed.

Lemma rouge_n_sentence_level_empty n alpha :
  (1 ≤ n)%Z → valid_alpha alpha →
  rouge_n_sentence_level (token := token) [] [] n alpha = Ok (0, 0, 0)%R.
Proof.
  intros Hn Ha. unfold rouge_n_sentence_level.
  destruct (_clipped_ngram_count_bounds (@nil token) [] n) as (H0 & Hs & _).
  assert (_num_ngrams (@nil token) n = 0%Z) as Hnum
    by (unfold _num_ngrams, len; simpl; lia).
  rewrite Hnum in *.
  replace (_clipped_ngram_count _ _) with 0%Z by lia.
  by apply _f1_measure_zero.
Qed.

(** C7: for every list of summary sentences, every list of reference
    sentences, every [n] (in particular [n >= 1]) and every [alpha] (in
    particular in [[0, 1]]), [rouge_n_summary_level] on the two texts equals
    [rouge_n_sentence_level] on their flattenings, where [flatten]
    concatenates the sentences of a text in order. *)
Theorem rouge_n_summary_level_flattens
    (summary_sentences reference_sentences : list (list token)) n alpha :
  rouge_n_summary_level summary_sentences reference_sentences n alpha
  = rouge_n_sentence_level (flatten summary_sentences)
      (flatten reference_sentences) n alpha.
Proof.
  unfold rouge_n_summary_level. by rewrite !_flatten_sentences_flatten.
Qed.
End rouge_n_proofs.

(** ** Summary-level ROUGE-L *)

Section rouge_l_summary_proofs.
Context {token : Type} `{Countable token}.
Implicit Types x y reference : list token.
Implicit Types st : lcs_state token.

Lemma _lcs_elements__loop_S (table : gmap (nat * nat) string) i j elements :
  _lcs_elements__loop table (S i) (S j) elements =
    (t ← dict_get table (S i, S j);
     if decide (t = "d") then
       _lcs_elements__loop table i j ({[(i, j)]} ∪ elements)
     else if decide (t = "u") then
       _lcs_elements__loop table i (S j) elements
     else _lcs_elements__loop table (S i) j elements).
Proof. reflexivity. Qed.

(** The backtrace returns when every inner cell has a trace entry, and
    the reference-side index of every pair it records is in range. *)
Lemma _lcs_elements__loop_ok (table : gmap (nat * nat) string) n m :
  (∀ i j, 1 ≤ i ≤ n → 1 ≤ j ≤ m → is_Some (table !! (i, j))) →
  ∀ i j elements, i ≤ n → j ≤ m →
    (∀ p, p ∈ elements → p.2 < m) →
    ∃ elements', _lcs_elements__loop table i j elements = Ok elements'
                 ∧ ∀ p, p ∈ elements' → p.2 < m.
Proof.
  intros Htable. induction i as [|i IHi]; [by eauto|].
  induction j as [|j IHj]; intros elements Hi Hj Hel; [by eauto|].
  rewrite _lcs_elements__loop_S. unfold dict_get.
  destruct (Htable (S i) (S j)) as [t ->]; [lia..|]. simpl.
  destruct (decide (t = "d")); [|destruct (decide (t = "u"))].
  - apply IHi; [lia..|]. intros p [->%elem_of_singleton|?]%elem_of_union;
      [simpl; lia|by apply Hel].
  - apply IHi; [lia..|done].
  - apply IHj; [lia..|done].
Qed.

Lemma _lcs_elements_ok x y :
  ∃ lcs, _lcs_elements x y = Ok lcs ∧ ∀ p, p ∈ lcs → p.2 < length y.
Proof.
  unfold _lcs_elements, _lcs_elements__compute_lcs_table.
  destruct (_lcs_elements__tables_spec x y) as ([lt tt] & -> & Hfill).
  simpl in *.
  apply (_lcs_elements__loop_ok tt (length x) (length y)); [|done..|].
  - intros i j Hi Hj. destruct (Hfill i j) as [_ Htt]; [lia..|].
    rewrite Htt by lia. by eexists.
  - intros p Hp. by apply not_elem_of_empty in Hp.
Qed.

Lemma _make_lcs_union_loop_ok (summary_sentences : list (list token))
    reference (lcs_union : gset nat) :
  (∀ w, w ∈ lcs_union → w < length reference) →
  ∃ lcs_union',
    foldlM (λ lcs_union sentence,
      lcs ← _lcs_elements sentence reference;
      Ok (lcs_union ∪ set_map (D := gset nat) snd lcs))
      lcs_union summary_sentences = Ok lcs_union'
    ∧ ∀ w, w ∈ lcs_union' → w < length reference.
Proof.
  revert lcs_union.
  induction summary_sentences as [|sentence summary_sentences IH];
    intros lcs_union Hu; simpl; [by eauto|].
  destruct (_lcs_elements_ok sentence reference) as (lcs & -> & Hlcs). simpl.
  apply IH. intros w [?|Hw]%elem_of_union; [by apply Hu|].
  apply elem_of_map in Hw as (p & -> & Hp). by apply Hlcs.
Qed.

Lemma _make_lcs_union_ok (summary_sentences : list (list token)) reference :
  ∃ lcs_union, _make_lcs_union summary_sentences reference = Ok lcs_union
               ∧ ∀ w, w ∈ lcs_union → w < length reference.
Proof.
  apply _make_lcs_union_loop_ok. intros w Hw. by apply not_elem_of_empty in Hw.
Qed.

Lemma sum_len_loop (text : list (list token)) (acc : Z) :
  foldl (λ acc sentence, (acc + len sentence)%Z) acc text
  = (acc + len (flatten text))%Z.
Proof.
  revert acc. induction text as [|sentence text IH]; intros acc; simpl.
  - unfold len. simpl. lia.
  - rewrite IH. unfold len. rewrite length_app. lia.
Qed.

Lemma sum_len_flatten (text : list (list token)) :
  sum_len text = len (flatten text).
Proof. unfold sum_len. by rewrite sum_len_loop. Qed.

Lemma _flatten_and_count_ngrams_1_sum (text : list (list token)) :
  counter_sum (_flatten_and_count_ngrams text 1) = len (flatten text).
Proof.
  unfold _flatten_and_count_ngrams, _count_ngrams.
  rewrite Counter_sum, _get_ngram_length, _flatten_sentences_flatten.
  unfold _num_ngrams, len. lia.
Qed.

Lemma counts_nonneg_get st :
  counts_nonneg st →
  (∀ k, 0 ≤ default 0 (summary_unigrams st !! k))%Z
  ∧ (∀ k, 0 ≤ default 0 (reference_unigrams st !! k))%Z.
Proof.
  intros [Hs Hr]. split; intros k.
  - destruct (summary_unigrams st !! k) eqn:E; simpl; [by eapply Hs|done].
  - destruct (reference_unigrams st !! k) eqn:E; simpl; [by eapply Hr|done].
Qed.

Section invariant.
Variables summary_sentences reference_sentences : list (list token).
Local Abbreviation invariant :=
  (lcs_invariant summary_sentences reference_sentences).

Lemma rouge_l_summary_level__init_invariant :
  invariant
    (rouge_l_summary_level__init summary_sentences reference_sentences).
Proof.
  unfold lcs_invariant, counts_nonneg. simpl.
  rewrite !_flatten_and_count_ngrams_1_sum.
  repeat split; try lia; intros unigram count Hc;
    apply Counter_pos in Hc; lia.
Qed.

(** The body of the inner loop keeps the invariant. *)
Lemma credit_word_invariant reference st word st' :
  invariant st → credit_word reference st word = Ok st' → invariant st'.
Proof.
  intros Hinv. unfold credit_word.
  destruct (getitem reference word) as [w|]; simpl; [|done].
  case_decide as Hguard; intros [= <-]; [|done].
  destruct Hguard as (_ & _ & Hs & Hr).
  destruct Hinv as ([Hns Hnr] & Htot & Hsum_s & Hsum_r).
  unfold lcs_invariant, counts_nonneg, counter_get in *. simpl.
  rewrite !counter_sum_insert.
  repeat split; try lia.
  - intros unigram count. destruct (decide ([w] = unigram)) as [<-|Hne].
    + rewrite lookup_insert_eq. intros [= <-]. lia.
    + rewrite lookup_insert_ne by done. apply Hns.
  - intros unigram count. destruct (decide ([w] = unigram)) as [<-|Hne].
    + rewrite lookup_insert_eq. intros [= <-]. lia.
    + rewrite lookup_insert_ne by done. apply Hnr.
Qed.

(** The inner loop returns when the word indices are in range. *)
Lemma credit_words_ok reference (words : list nat) st :
  invariant st → (∀ w, w ∈ words → w < length reference) →
  ∃ st', foldlM (credit_word reference) st words = Ok st' ∧ invariant st'.
Proof.
  revert st. induction words as [|word words IH]; intros st Hinv Hw; simpl;
    [by eauto|].
  assert (∃ st1, credit_word reference st word = Ok st1) as [st1 Hst1].
  { unfold credit_word.
    destruct (getitem_lt reference word) as (w & _ & ->); [apply Hw; left|].
    simpl. case_decide; by eauto. }
  rewrite Hst1. simpl. apply IH.
  - by eapply credit_word_invariant.
  - intros w ?. apply Hw. by right.
Qed.

(** The body of the outer loop returns and keeps the invariant. *)
Lemma credit_reference_ok (summaries : list (list token)) st reference :
  invariant st →
  ∃ st', credit_reference summaries st reference = Ok st' ∧ invariant st'.
Proof.
  intros Hinv. unfold credit_reference.
  destruct (_make_lcs_union_ok summaries reference) as (u & -> & Hu). simpl.
  apply credit_words_ok; [done|].
  intros w Hw. apply Hu. by apply elem_of_elements.
Qed.

Lemma credit_references_ok (summaries references : list (list token)) st :
  invariant st →
  ∃ st', foldlM (credit_reference summaries) st references = Ok st'
         ∧ invariant st'.
Proof.
  revert st. induction references as [|reference references IH];
    intros st Hinv; simpl; [by eauto|].
  destruct (credit_reference_ok summaries st reference Hinv)
    as (st1 & -> & Hst1).
  simpl. by apply IH.
Qed.

(** Every state the loops pass through satisfies the invariant. *)
Lemma visited_invariant st :
  visited summary_sentences reference_sentences st → invariant st.
Proof.
  intros (refs_done & refs_todo & st0 & _ & Hst0 & Hst).
  assert (invariant st0) as Hinv0.
  { destruct (credit_references_ok summary_sentences refs_done _
                rouge_l_summary_level__init_invariant) as (st0' & Heq & Hinv).
    rewrite Heq in Hst0. by injection Hst0 as <-. }
  destruct Hst as [->|(reference & _ & u & words_done & _ & _ & _ & _ & Hst)];
    [done|].
  eapply (foldlM_preserves (λ st, invariant st)); [exact Hinv0| |exact Hst].
  intros s w s' _ Hs Hstep. by eapply credit_word_invariant.
Qed.
End invariant.

(** A count changes only under the guard, and then by one. *)
Lemma credit_word_guard reference st word st' unigram :
  credit_word reference st word = Ok st' →
  summary_unigrams st' !! unigram ≠ summary_unigrams st !! unigram
  ∨ reference_unigrams st' !! unigram ≠ reference_unigrams st !! unigram →
  (0 < counter_get (summary_unigrams st) unigram)%Z
  ∧ (0 < counter_get (reference_unigrams st) unigram)%Z
  ∧ summary_unigrams st' !! unigram
    = Some (counter_get (summary_unigrams st) unigram - 1)%Z
  ∧ reference_unigrams st' !! unigram
    = Some (counter_get (reference_unigrams st) unigram - 1)%Z.
Proof.
  unfold credit_word.
  destruct (getitem reference word) as [w|]; simpl; [|done].
  case_decide as Hguard; intros [= <-]; [|by intros [?|?]].
  simpl. destruct (decide ([w] = unigram)) as [<-|Hne].
  - intros _. rewrite !lookup_insert_eq. tauto.
  - rewrite !lookup_insert_ne by done. by intros [?|?].
Qed.

Lemma rouge_l_summary_level_unit
    (summary_sentences reference_sentences : list (list token)) alpha :
  valid_alpha alpha →
  ∃ t, rouge_l_summary_level summary_sentences reference_sentences alpha
       = Ok t ∧ unit_triple t.
Proof.
  intros Ha. unfold rouge_l_summary_level.
  destruct (credit_references_ok summary_sentences reference_sentences
              summary_sentences reference_sentences _
              (rouge_l_summary_level__init_invariant _ _))
    as (st & -> & Hnn & Htot & Hs & Hr).
  simpl. rewrite !sum_len_flatten.
  destruct (counts_nonneg_get st Hnn) as [Hgs Hgr].
  apply counter_sum_nonneg in Hgs, Hgr.
  apply _f1_measure_unit; [done| |apply IZR_le; lia].
  split; apply IZR_le; lia.
Qed.

Lemma rouge_l_summary_level_invalid
    (summary_sentences reference_sentences : list (list token)) alpha :
  ¬ valid_alpha alpha →
  rouge_l_summary_level summary_sentences reference_sentences alpha
  = Raise (ValueError "alpha must be between [0, 1]").
Proof.
  intros Ha. unfold rouge_l_summary_level.
  destruct (credit_references_ok summary_sentences reference_sentences
              summary_sentences reference_sentences _
              (rouge_l_summary_level__init_invariant _ _))
    as (st & -> & _).
  simpl. by apply _f1_measure_invalid.
Qed.

(** C8: in every state an execution of [rouge_l_summary_level] passes
    through (between any two iterations of its loops, whatever the order
    in which the sets are iterated), no count of the
    summary-unigram counter or of the reference-unigram counter is
    negative; and the loop body changes a unigram's counts only when both
    are strictly greater than zero, each to one less, so the counts it
    leaves behind are the counts after its two decrements. *)
Theorem rouge_l_summary_level_counts_nonneg
    (summary_sentences reference_sentences : list (list token)) st :
  visited summary_sentences reference_sentences st →
  counts_nonneg st
  ∧ ∀ reference word st' unigram,
      credit_word reference st word = Ok st' →
      summary_unigrams st' !! unigram ≠ summary_unigrams st !! unigram
      ∨ reference_unigrams st' !! unigram ≠ reference_unigrams st !! unigram →
      (0 < counter_get (summary_unigrams st) unigram)%Z
      ∧ (0 < counter_get (reference_unigrams st) unigram)%Z
      ∧ summary_unigrams st' !! unigram
        = Some (counter_get (summary_unigrams st) unigram - 1)%Z
      ∧ reference_unigrams st' !! unigram
        = Some (counter_get (reference_unigrams st) unigram - 1)%Z.
Proof.
  intros Hv. split.
  - by destruct (visited_invariant _ _ _ Hv) as [? _].
  - intros reference word st' unigram. apply credit_word_guard.
Qed.
End rouge_l_summary_proofs.

Lemma example_union :
  _make_lcs_union [["the"; "police"]] ["the"; "police"] = Ok {[0; 1]}.
Proof. vm_compute. reflexivity. Qed.

Lemma example_order : [0; 1] ≡ₚ elements ({[0; 1]} : gset nat).
Proof.
  replace (elements ({[0; 1]} : gset nat)) with [1; 0]
    by (vm_compute; reflexivity).
  apply perm_swap.
Qed.

Lemma example_credit :
  foldlM (credit_word ["the"; "police"])
    (rouge_l_summary_level__init [["the"; "police"]] [["the"; "police"]])
    [0] = Ok example_state.
Proof. vm_compute. reflexivity. Qed.

Lemma example_state_visited :
  visited [["the"; "police"]] [["the"; "police"]] example_state.
Proof.
  exists [], [["the"; "police"]],
    (rouge_l_summary_level__init [["the"; "police"]] [["the"; "police"]]).
  split; [reflexivity|]. split; [reflexivity|]. right.
  exists ["the"; "police"], [], {[0; 1]}, [0], [1].
  split; [reflexivity|]. split; [apply example_union|].
  split; [apply example_order|apply example_credit].
Qed.

Lemma rouge_l_summary_level_counts_nonneg_witness :
  visited [["the"; "police"]] [["the"; "police"]] example_state
  ∧ counts_nonneg example_state.
Proof.
  split; [exact example_state_visited|].
  exact (proj1 (rouge_l_summary_level_counts_nonneg _ _ example_state
                  example_state_visited)).
Defined.

(** ** The weight function *)

Section weight_proofs.
Local Open Scope R_scope.

Lemma real_pow_0 q : q ≠ 0 → real_pow 0 q = 0.
Proof. intros Hq. unfold real_pow. by rewrite decide_True, decide_False. Qed.

Lemma real_pow_pos x q : 0 < x → real_pow x q = Rpower x q.
Proof.
  intros Hx. unfold real_pow. rewrite decide_False by lra.
  by rewrite decide_True.
Qed.


Lemma Rpower_gt_0 x q : 0 < Rpower x q.
Proof. unfold Rpower. apply exp_pos. Qed.

Lemma real_pow_nonneg x q : 0 <= x → 0 <= real_pow x q.
Proof.
  intros Hx. destruct (decide (x = 0)) as [->|Hne].
  - unfold real_pow. rewrite decide_True by done. case_decide; lra.
  - rewrite real_pow_pos by lra. left. apply Rpower_gt_0.
Qed.

Lemma DBL_MAX_ge_1 : 1 <= DBL_MAX.
Proof.
  unfold DBL_MAX.
  assert (1 <= 2 ^ 1023) by (apply pow_R1_Rle; lra).
  assert (1 <= 2 ^ 52) by (apply pow_R1_Rle; lra).
  assert (/ 2 ^ 52 <= 1).
  { rewrite <- Rinv_1. apply Rinv_le_contravar; lra. }
  set (a := 2 ^ 1023) in *. set (b := / 2 ^ 52) in *. nra.
Qed.

Lemma DBL_MAX_lt_pow : DBL_MAX < 2 ^ 1024.
Proof.
  unfold DBL_MAX. rewrite <- (tech_pow_Rmult 2 1023).
  assert (0 < 2 ^ 1023) by (apply pow_lt; lra).
  assert (0 < / 2 ^ 52) by (apply Rinv_0_lt_compat, pow_lt; lra).
  set (a := 2 ^ 1023) in *. set (b := / 2 ^ 52) in *. nra.
Qed.

(** [math.pow] on a base [x >= 0] and an exponent [y > 0], which is how
    the module calls it: the power, or the range error. *)
Lemma math_pow_cases x y :
  0 <= x → 0 < y →
  (math_pow x y = Ok (real_pow x y) ∧ real_pow x y <= DBL_MAX)
  ∨ (math_pow x y = Raise (OverflowError "math range error")
     ∧ DBL_MAX < real_pow x y).
Proof.
  intros Hx Hy. unfold math_pow.
  rewrite decide_False by (intros [[? _]|[_ ?]]; lra).
  rewrite Rabs_pos_eq by (by apply real_pow_nonneg).
  case_decide; [right|left]; split; try done. lra.
Qed.

Lemma math_pow_0 y : 0 < y → math_pow 0 y = Ok 0.
Proof.
  intros Hy. pose proof DBL_MAX_ge_1.
  destruct (math_pow_cases 0 y) as [[-> _]|[_ Hov]]; [lra|done| |].
  - by rewrite real_pow_0 by lra.
  - rewrite real_pow_0 in Hov by lra. lra.
Qed.


Section power.
Variable p : R.
Hypothesis Hp : 1 < p.

Lemma weight_of_0 : weight_of p 0 = 0.
Proof. unfold weight_of. simpl. apply real_pow_0. lra. Qed.

Lemma weight_of_S k : weight_of p (S k) = Rpower (INR (S k)) p.
Proof.
  unfold weight_of. apply real_pow_pos. apply lt_0_INR. lia.
Qed.

Lemma weight_of_nonneg k : 0 <= weight_of p k.
Proof.
  destruct k; [rewrite weight_of_0; lra|].
  rewrite weight_of_S. left. apply Rpower_gt_0.
Qed.

Lemma weight_of_mono a b : (a ≤ b)%nat → weight_of p a <= weight_of p b.
Proof.
  intros Hab. destruct a as [|a]; [rewrite weight_of_0; apply weight_of_nonneg|].
  destruct b as [|b]; [lia|]. rewrite !weight_of_S.
  apply Rle_Rpower_l; [lra|]. split; [apply lt_0_INR; lia|by apply le_INR].
Qed.
End power.

(** The weight of a run of two matches under the weight power 2000 is
    [2^2000], beyond the range of a double. *)
Lemma weight_of_2000_overflows : 2 ^ 1024 <= weight_of 2000 2.
Proof.
  unfold weight_of. rewrite real_pow_pos by (simpl; lra).
  replace 2000 with (INR 2000) by (rewrite INR_IZR_INZ; reflexivity).
  rewrite Rpower_pow by (simpl; lra).
  replace (INR 2) with 2 by (simpl; lra).
  apply Rle_pow; [lra|lia].
Qed.
End weight_proofs.

(** ** Weighted LCS engine *)

Section wlcs_proofs.
Context {token : Type} `{Countable token}.
Implicit Types x y : list token.
Local Open Scope R_scope.

Lemma run_rec_S x y i j :
  run_rec x y (S i) (S j) =
    if decide (x !! i = y !! j) then (run_rec x y i j + 1)%nat else 0%nat.
Proof. reflexivity. Qed.

Lemma run_rec_0 x y i j : i = 0%nat ∨ j = 0%nat → run_rec x y i j = 0%nat.
Proof. intros [->| ->]; [done|by destruct i]. Qed.

Lemma wlcs_rec_S w x y i j :
  wlcs_rec w x y (S i) (S j) =
    if decide (x !! i = y !! j) then
      wlcs_rec w x y i j
      + (w (run_rec x y i j + 1)%nat - w (run_rec x y i j))
    else Rmax (wlcs_rec w x y i (S j)) (wlcs_rec w x y (S i) j).
Proof. reflexivity. Qed.

Lemma wlcs_rec_0 w x y i j : i = 0%nat ∨ j = 0%nat → wlcs_rec w x y i j = 0.
Proof. intros [->| ->]; [done|by destruct i]. Qed.

Lemma run_rec_sym x y i j : run_rec x y i j = run_rec y x j i.
Proof.
  revert j. induction i as [|i IH]; intros [|j];
    rewrite ?run_rec_0 by auto; try done.
  rewrite !run_rec_S, IH.
  destruct (decide (x !! i = y !! j)), (decide (y !! j = x !! i));
    congruence.
Qed.

Lemma wlcs_rec_sym w x y i j : wlcs_rec w x y i j = wlcs_rec w y x j i.
Proof.
  revert j. induction i as [|i IHi]; intros j.
  - by rewrite !wlcs_rec_0 by auto.
  - induction j as [|j IHj]; [by rewrite !wlcs_rec_0 by auto|].
    rewrite !wlcs_rec_S, IHi, IHj, (IHi (S j)), (run_rec_sym x y).
    destruct (decide (x !! i = y !! j)), (decide (y !! j = x !! i));
      try congruence. apply Rmax_comm.
Qed.

Lemma run_rec_diag x i : (i ≤ length x)%nat → run_rec x x i i = i.
Proof.
  induction i as [|i IH]; [done|]. intros Hi.
  rewrite run_rec_S, decide_True by done. rewrite IH; lia.
Qed.

Lemma has_match_sym x y : has_match x y → has_match y x.
Proof. intros (i & j & t & ? & ?). by exists j, i, t. Qed.

Lemma run_overflows_sym p x y : run_overflows p x y → run_overflows p y x.
Proof.
  intros (i & j & t & ? & ? & Hov). exists j, i, t.
  by rewrite <- run_rec_sym.
Qed.

Lemma run_overflows_has_match p x y : run_overflows p x y → has_match x y.
Proof. intros (i & j & t & ? & ? & _). by exists i, j, t. Qed.

(** Without a common token every cell of the table stays at 0. *)
Lemma wlcs_rec_no_match w x y i j :
  ¬ has_match x y → (i ≤ length x)%nat → (j ≤ length y)%nat →
  wlcs_rec w x y i j = 0.
Proof.
  intros Hno. revert j. induction i as [|i IHi]; intros j Hi Hj.
  { by rewrite wlcs_rec_0 by auto. }
  induction j as [|j IHj]; [by rewrite wlcs_rec_0 by auto|].
  rewrite wlcs_rec_S. case_decide as Heq.
  - destruct (lookup_lt_is_Some_2 x i) as [t Ht]; [lia|].
    destruct Hno. exists i, j, t. split; [done|]. by rewrite <- Heq.
  - rewrite IHi, IHj by lia. unfold Rmax. case_match; lra.
Qed.

(** With a weight that grows with the run length no cell is negative. *)
Lemma wlcs_rec_nonneg (w : nat → R) x y i j :
  (∀ a b, (a ≤ b)%nat → w a <= w b) → 0 <= wlcs_rec w x y i j.
Proof.
  intros Hmono. revert j. induction i as [|i IHi]; intros j.
  { rewrite wlcs_rec_0 by auto. lra. }
  induction j as [|j IHj]; [rewrite wlcs_rec_0 by auto; lra|].
  rewrite wlcs_rec_S. case_decide.
  - pose proof (IHi j).
    pose proof (Hmono (run_rec x y i j) (run_rec x y i j + 1)%nat
                  ltac:(lia)).
    lra.
  - pose proof (IHi (S j)). unfold Rmax. case_match; lra.
Qed.

Lemma _weight_fn_valid v weight inverse :
  valid_weight weight →
  _weight_fn v weight inverse =
    math_pow v (if inverse then 1 / default DEFAULT_WEIGHT_FACTOR weight
                else default DEFAULT_WEIGHT_FACTOR weight).
Proof. intros Hw. unfold _weight_fn. by rewrite decide_True. Qed.

Lemma _weight_fn_invalid v weight inverse :
  ¬ valid_weight weight →
  _weight_fn v weight inverse = Raise (ValueError "weight must be > 1.0").
Proof. intros Hw. unfold _weight_fn. by rewrite decide_False. Qed.

(** The weight of a run length, as the loop asks for it: the weight, or
    the range error of [math.pow]. *)
Lemma _weight_fn_run weight (k : nat) :
  valid_weight weight →
  (_weight_fn (INR k) weight false
   = Ok (weight_of (default DEFAULT_WEIGHT_FACTOR weight) k)
   ∧ weight_of (default DEFAULT_WEIGHT_FACTOR weight) k <= DBL_MAX)
  ∨ (_weight_fn (INR k) weight false
     = Raise (OverflowError "math range error")
     ∧ DBL_MAX < weight_of (default DEFAULT_WEIGHT_FACTOR weight) k).
Proof.
  intros Hw. rewrite _weight_fn_valid by done. unfold weight_of.
  apply math_pow_cases; [apply pos_INR|]. unfold valid_weight in Hw. lra.
Qed.

(** The four outcomes of [_lcs_length_with_weight].  Without a common
    token it returns 0 and never looks at the weight; at the first token
    match it raises for an invalid weight; with a valid weight it raises
    the range error of [math.pow] when the weight of some run of matches
    is beyond the largest double, and otherwise returns the last cell of
    the recurrence. *)
Lemma _lcs_length_with_weight_cases x y weight :
  (¬ has_match x y ∧ _lcs_length_with_weight x y weight = Ok 0)
  ∨ (has_match x y ∧ ¬ valid_weight weight
     ∧ _lcs_length_with_weight x y weight
       = Raise (ValueError "weight must be > 1.0"))
  ∨ (valid_weight weight
     ∧ run_overflows (default DEFAULT_WEIGHT_FACTOR weight) x y
     ∧ _lcs_length_with_weight x y weight
       = Raise (OverflowError "math range error"))
  ∨ (has_match x y ∧ valid_weight weight
     ∧ ¬ run_overflows (default DEFAULT_WEIGHT_FACTOR weight) x y
     ∧ _lcs_length_with_weight x y weight
       = Ok (wlcs_rec (weight_of (default DEFAULT_WEIGHT_FACTOR weight)) x y
               (length x) (length y))).
Proof.
  unfold _lcs_length_with_weight.
  set (p := default DEFAULT_WEIGHT_FACTOR weight).
  set (w := weight_of p).
  match goal with
  | |- context [dp_loop ?n ?m ?body ?s0] =>
      destruct (dp_loop_spec_or
        (λ i j (s : gmap (nat * nat) R * gmap (nat * nat) nat),
           s.1 !! (i, j) = Some (wlcs_rec w x y i j)
           ∧ s.2 !! (i, j) = Some (run_rec x y i j)
           ∧ ∀ i0 j0 t, i = S i0 → j = S j0 →
               x !! i0 = Some t → y !! j0 = Some t →
               valid_weight weight ∧ w (run_rec x y i j) <= DBL_MAX)
        (λ e, (has_match x y ∧ ¬ valid_weight weight
               ∧ e = ValueError "weight must be > 1.0")
              ∨ (valid_weight weight ∧ run_overflows p x y
                 ∧ e = OverflowError "math range error"))
        n m body s0) as [([wl cm] & -> & Hfill)|(e & -> & He)]
  end.
  - intros i j [wl cm] Hi Hj Hprev.
    assert (∀ i' j', (j' ≤ length y)%nat →
                     (i' < i)%nat ∨ i' = i ∧ (j' < j)%nat →
                     wl !! (i', j') = Some (wlcs_rec w x y i' j')) as Hwl
      by (intros; by apply Hprev).
    assert (∀ i' j', (j' ≤ length y)%nat →
                     (i' < i)%nat ∨ i' = i ∧ (j' < j)%nat →
                     cm !! (i', j') = Some (run_rec x y i' j')) as Hcm
      by (intros; by apply Hprev).
    set (Q := λ i' j' : nat,
           ∀ i0 j0 t, i' = S i0 → j' = S j0 →
             x !! i0 = Some t → y !! j0 = Some t →
             valid_weight weight ∧ w (run_rec x y i' j') <= DBL_MAX).
    assert (∀ i' j', (j' ≤ length y)%nat →
                     (i' < i)%nat ∨ i' = i ∧ (j' < j)%nat → Q i' j') as Hok
      by (intros i' j' ? ?; by destruct (Hprev i' j') as (_ & _ & ?)).
    clear Hprev.
    destruct (decide (i = 0%nat ∨ j = 0%nat)) as [Hz|Hnz].
    { left. eexists (_, _); split; [done|]. intros i' j' Hj' Hle. split.
      - apply (fill_cell (wlcs_rec w x y)) with (m := length y); try done.
        by rewrite wlcs_rec_0.
      - split.
        + apply (fill_cell (run_rec x y)) with (m := length y); try done.
          by rewrite run_rec_0.
        + apply (fill_cell_prop Q _ _ (length y) Hok); [|done|done].
          intros i0 j0 t -> ->. lia. }
    destruct i as [|i]; [tauto|]. destruct j as [|j]; [tauto|].
    simpl. rewrite !Nat.sub_0_r.
    destruct (getitem_lt x i) as (xi & Hxi & ->); [lia|].
    destruct (getitem_lt y j) as (yj & Hyj & ->); [lia|]. simpl.
    destruct (decide (xi = yj)) as [Heq|Hne].
    + unfold dict_get. rewrite (Hcm i j) by lia. simpl.
      assert (run_rec x y (S i) (S j) = (run_rec x y i j + 1)%nat) as Hrun.
      { rewrite run_rec_S, Hxi, Hyj, decide_True; [done|by f_equal]. }
      destruct (decide (valid_weight weight)) as [Hw|Hw]; cycle 1.
      { right. rewrite !_weight_fn_invalid by done. simpl.
        eexists; split; [done|]. left. split; [|done].
        exists i, j, xi. split; [done|congruence]. }
      destruct (_weight_fn_run weight (run_rec x y i j + 1) Hw)
        as [[-> Hb1]|[-> Hov]]; cycle 1.
      { right. simpl. eexists; split; [done|]. right.
        split; [done|]. split; [|done].
        exists i, j, xi. rewrite Hrun. repeat split; [done|congruence|done]. }
      simpl.
      destruct (_weight_fn_run weight (run_rec x y i j) Hw)
        as [[-> _]|[_ Hov]]; cycle 1.
      { pose proof (weight_of_mono p Hw (run_rec x y i j)
                      (run_rec x y i j + 1) ltac:(lia)).
        fold p in Hov, Hb1. lra. }
      simpl. rewrite (Hwl i j) by lia. simpl.
      left. eexists (_, _); split; [done|]. intros i' j' Hj' Hle. split.
      * apply (fill_cell (wlcs_rec w x y)) with (m := length y); try done.
        rewrite wlcs_rec_S, Hxi, Hyj, decide_True; [done|by f_equal].
      * split.
        -- apply (fill_cell (run_rec x y)) with (m := length y); try done.
        -- apply (fill_cell_prop Q _ _ (length y) Hok); [|done|done].
           intros i0 j0 t _ _ _ _. split; [done|]. by rewrite Hrun.
    + left. unfold dict_get.
      rewrite (Hwl i (S j)), (Hwl (S i) j) by lia. simpl.
      assert (x !! i ≠ y !! j) as Hne' by congruence.
      eexists (_, _); split; [done|]. intros i' j' Hj' Hle. split.
      * apply (fill_cell (wlcs_rec w x y)) with (m := length y); try done.
        by rewrite wlcs_rec_S, decide_False.
      * split.
        -- apply (fill_cell (run_rec x y)) with (m := length y); try done.
           by rewrite run_rec_S, decide_False.
        -- apply (fill_cell_prop Q _ _ (length y) Hok); [|done|done].
           intros i0 j0 t [= <-] [= <-] Hx Hy. congruence.
  - simpl in *. unfold dict_get.
    destruct (Hfill (length x) (length y)) as [-> _]; [done|done|]. simpl.
    destruct (Classical_Prop.classic (has_match x y))
      as [(i & j & t & Hx & Hy)|Hno].
    + right. right. right.
      pose proof (lookup_lt_Some _ _ _ Hx). pose proof (lookup_lt_Some _ _ _ Hy).
      destruct (Hfill (S i) (S j)) as (_ & _ & Hok); [lia|lia|].
      destruct (Hok i j t) as [Hw _]; [done..|].
      split; [by exists i, j, t|]. split; [done|]. split; [|done].
      intros (i1 & j1 & t1 & Hx1 & Hy1 & Hov).
      pose proof (lookup_lt_Some _ _ _ Hx1).
      pose proof (lookup_lt_Some _ _ _ Hy1).
      destruct (Hfill (S i1) (S j1)) as (_ & _ & Hok1); [lia|lia|].
      destruct (Hok1 i1 j1 t1) as [_ Hb]; [done..|].
      fold p w in Hov. lra.
    + left. split; [done|]. by rewrite wlcs_rec_no_match.
  - destruct He as [(Hm & Hw & ->)|(Hw & Hov & ->)]; simpl.
    + right. left. done.
    + right. right. left. done.
Qed.

(** With a valid weight the only error is the range error, and a
    returned value is not negative. *)
Lemma _lcs_length_with_weight_valid x y weight :
  valid_weight weight →
  (∃ v, _lcs_length_with_weight x y weight = Ok v ∧ 0 <= v)
  ∨ _lcs_length_with_weight x y weight
    = Raise (OverflowError "math range error").
Proof.
  intros Hw.
  destruct (_lcs_length_with_weight_cases x y weight)
    as [[_ ->]|[(_ & ? & _)|[(_ & _ & ->)|(_ & _ & _ & ->)]]];
    [left|done|by right|left].
  - exists 0. split; [done|lra].
  - eexists. split; [done|].
    apply wlcs_rec_nonneg. apply weight_of_mono. exact Hw.
Qed.

(** Exchanging the two sequences transposes the table: the outcome is
    the same, the error included. *)
Lemma _lcs_length_with_weight_swap x y weight :
  _lcs_length_with_weight x y weight = _lcs_length_with_weight y x weight.
Proof.
  pose proof (has_match_sym x y). pose proof (has_match_sym y x).
  pose proof (run_overflows_sym (default DEFAULT_WEIGHT_FACTOR weight) x y).
  pose proof (run_overflows_sym (default DEFAULT_WEIGHT_FACTOR weight) y x).
  pose proof (run_overflows_has_match
                (default DEFAULT_WEIGHT_FACTOR weight) x y).
  pose proof (run_overflows_has_match
                (default DEFAULT_WEIGHT_FACTOR weight) y x).
  destruct (_lcs_length_with_weight_cases x y weight)
    as [[? ->]|[(? & ? & ->)|[(? & ? & ->)|(? & ? & ? & ->)]]];
  destruct (_lcs_length_with_weight_cases y x weight)
    as [[? ->]|[(? & ? & ->)|[(? & ? & ->)|(? & ? & ? & ->)]]];
    try done; try tauto.
  by rewrite wlcs_rec_sym.
Qed.
End wlcs_proofs.

(** ** Sentence-level ROUGE-W *)

Section rouge_w_proofs.
Context {token : Type} `{Countable token}.
Implicit Types x y : list token.
Local Open Scope R_scope.

Lemma _divide_or_zero_nonneg a b : 0 <= a → 0 <= b → 0 <= _divide_or_zero a b.
Proof.
  intros Ha Hb. unfold _divide_or_zero. case_decide; [lra|].
  unfold Rdiv. apply Rmult_le_pos; [done|].
  left. apply Rinv_0_lt_compat. lra.
Qed.

Lemma rouge_w_sentence_level__compute_invalid weight n d :
  ¬ valid_weight weight →
  rouge_w_sentence_level__compute weight n d =
    Raise (ValueError "weight must be > 1.0").
Proof.
  intros Hw. unfold rouge_w_sentence_level__compute.
  by rewrite _weight_fn_invalid.
Qed.

(** With a valid weight, [compute] on a non-negative numerator and a
    length returns a non-negative number, or raises the range error of
    [math.pow]. *)
Lemma rouge_w_sentence_level__compute_cases weight n d :
  valid_weight weight → 0 <= n → 0 <= d →
  (∃ v, rouge_w_sentence_level__compute weight n d = Ok v ∧ 0 <= v)
  ∨ rouge_w_sentence_level__compute weight n d
    = Raise (OverflowError "math range error").
Proof.
  intros Hw Hn Hd. unfold rouge_w_sentence_level__compute.
  rewrite _weight_fn_valid by done.
  pose proof Hw as Hp. unfold valid_weight in Hp.
  set (p := default DEFAULT_WEIGHT_FACTOR weight) in *.
  destruct (math_pow_cases d p) as [[-> _]|[-> _]];
    [done|lra| |by right].
  simpl. rewrite _weight_fn_valid by done. fold p.
  assert (0 <= _divide_or_zero n (real_pow d p)) as Hq
    by (apply _divide_or_zero_nonneg; [done|by apply real_pow_nonneg]).
  destruct (math_pow_cases (_divide_or_zero n (real_pow d p)) (1 / p))
    as [[-> _]|[-> _]]; [done|apply Rdiv_lt_0_compat; lra| |by right].
  left. eexists. split; [done|]. by apply real_pow_nonneg.
Qed.

Lemma rouge_w_sentence_level_invalid_weight x y weight alpha :
  ¬ valid_weight weight →
  rouge_w_sentence_level x y weight alpha =
    Raise (ValueError "weight must be > 1.0").
Proof.
  intros Hw. unfold rouge_w_sentence_level.
  destruct (_lcs_length_with_weight_cases x y weight)
    as [[_ ->]|[(_ & _ & ->)|[(? & _)|(_ & ? & _)]]]; try done.
  simpl. by rewrite !rouge_w_sentence_level__compute_invalid by done.
Qed.

(** With a valid weight, [rouge_w_sentence_level] raises the range error
    of [math.pow] or reaches [_compute_f1_measure] with a non-negative
    recall and precision. *)
Lemma rouge_w_sentence_level_valid_cases x y weight alpha :
  valid_weight weight →
  (∃ recall precision,
     0 <= recall ∧ 0 <= precision
     ∧ rouge_w_sentence_level x y weight alpha
       = (f1 ← _compute_f1_measure recall precision alpha;
          Ok (recall, precision, f1)))
  ∨ rouge_w_sentence_level x y weight alpha
    = Raise (OverflowError "math range error").
Proof.
  intros Hw. unfold rouge_w_sentence_level.
  destruct (_lcs_length_with_weight_valid x y weight Hw)
    as [(v & -> & Hv)| ->]; [|by right].
  simpl.
  destruct (rouge_w_sentence_level__compute_cases weight v
              (IZR (len y)) Hw Hv) as [(recall & -> & Hr)| ->];
    [apply IZR_le; unfold len; lia| |by right].
  simpl.
  destruct (rouge_w_sentence_level__compute_cases weight v
              (IZR (len x)) Hw Hv) as [(precision & -> & Hp)| ->];
    [apply IZR_le; unfold len; lia| |by right].
  simpl. left. by exists recall, precision.
Qed.

Lemma rouge_w_sentence_level_empty weight alpha :
  valid_weight weight → valid_alpha alpha →
  rouge_w_sentence_level (token := token) [] [] weight alpha
  = Ok (0, 0, 0).
Proof.
  intros Hw Ha. unfold rouge_w_sentence_level.
  destruct (_lcs_length_with_weight_cases (@nil token) [] weight)
    as [[_ ->]|[((? & ? & ? & ? & _) & _)|[(_ & Ho & _)|((? & ? & ? & ? & _) & _)]]];
    try done.
  - simpl. unfold rouge_w_sentence_level__compute.
    pose proof Hw as Hp. unfold valid_weight in Hp.
    rewrite !_weight_fn_valid by done. unfold len. simpl.
    rewrite math_pow_0 by lra. simpl.
    rewrite _weight_fn_valid by done.
    rewrite _divide_or_zero_0_l.
    rewrite math_pow_0 by (apply Rdiv_lt_0_compat; lra). simpl.
    rewrite _compute_f1_measure_valid by done. simpl.
    by rewrite Rmult_0_l, _divide_or_zero_0_l.
  - by destruct Ho as (? & ? & ? & ? & _).
Qed.

(** On identical sequences the diagonal is one run of matches: when the
    weight of a run as long as the sequence is beyond the range of a
    double, the weighted LCS raises. *)
Lemma _lcs_length_with_weight_overflows (x : list token) weight :
  valid_weight weight → x ≠ [] →
  2 ^ 1024 <= weight_of (default DEFAULT_WEIGHT_FACTOR weight) (length x) →
  _lcs_length_with_weight x x weight
  = Raise (OverflowError "math range error").
Proof.
  intros Hw Hx Hbig.
  assert (run_overflows (default DEFAULT_WEIGHT_FACTOR weight) x x) as Hov.
  { destruct (length x) as [|k] eqn:Hk; [by destruct x|].
    destruct (lookup_lt_is_Some_2 x k) as [t Ht]; [lia|].
    exists k, k, t. split; [done|]. split; [done|].
    rewrite run_rec_diag by lia. pose proof DBL_MAX_lt_pow. lra. }
  destruct (_lcs_length_with_weight_cases x x weight)
    as [[Hno _]|[(_ & ? & _)|[(_ & _ & ->)|(_ & _ & Hno & _)]]]; try done.
  destruct Hno. by eapply run_overflows_has_match.
Qed.

End rouge_w_proofs.

(** On [['a', 'b']] against itself with the weight power 2000, the second
    match asks for [math.pow(2, 2000.0)]. *)
Lemma _lcs_length_with_weight_2000 :
  valid_weight (Some 2000%R)
  ∧ _lcs_length_with_weight ["a"; "b"] ["a"; "b"] (Some 2000%R)
    = Raise (OverflowError "math range error").
Proof.
  assert (valid_weight (Some 2000%R)) as Hw
    by (unfold valid_weight; simpl; lra).
  split; [done|].
  apply _lcs_length_with_weight_overflows; [done|done|].
  apply weight_of_2000_overflows.
Qed.



(** ** The five implemented routines *)

Section routines.
Context {token : Type} `{Countable token}.
Implicit Types x y : list token.
Implicit Types text : list (list token).

Lemma unit_triple_bounded alpha (t : score_triple) :
  unit_triple t → bounded_scores alpha t.
Proof.
  destruct t as [[recall precision] f1]. unfold unit_triple, bounded_scores.
  intros (? & ? & [? ?]). tauto.
Qed.

Lemma rouge_l_sentence_level_unit x y alpha :
  valid_alpha alpha →
  ∃ t, rouge_l_sentence_level x y alpha = Ok t ∧ unit_triple t.
Proof.
  intros Ha. unfold rouge_l_sentence_level.
  rewrite _lcs_length_spec. simpl.
  pose proof (lcs_rec_le x y (length x) (length y)).
  rewrite INR_IZR_INZ.
  apply _f1_measure_unit; [done| |apply IZR_le; unfold len; lia].
  split; apply IZR_le; unfold len; lia.
Qed.

Lemma rouge_l_sentence_level_invalid x y alpha :
  ¬ valid_alpha alpha →
  rouge_l_sentence_level x y alpha =
    Raise (ValueError "alpha must be between [0, 1]").
Proof.
  intros Ha. unfold rouge_l_sentence_level.
  rewrite _lcs_length_spec. simpl. by apply _f1_measure_invalid.
Qed.

Lemma rouge_l_sentence_level_empty alpha :
  valid_alpha alpha →
  rouge_l_sentence_level (token := token) [] [] alpha = Ok (0, 0, 0)%R.
Proof.
  intros Ha. unfold rouge_l_sentence_level.
  rewrite _lcs_length_spec. simpl. by apply _f1_measure_zero.
Qed.

Lemma flatten_empty text : Forall (λ sentence, sentence = []) text →
  flatten text = [].
Proof. induction 1 as [|? ? -> _ IH]; [done|]. by simpl. Qed.

Lemma rouge_n_summary_level_unit text1 text2 n alpha :
  valid_alpha alpha →
  ∃ t, rouge_n_summary_level text1 text2 n alpha = Ok t ∧ unit_triple t.
Proof. intros Ha. by apply rouge_n_sentence_level_unit. Qed.

Lemma rouge_n_summary_level_invalid text1 text2 n alpha :
  ¬ valid_alpha alpha →
  rouge_n_summary_level text1 text2 n alpha =
    Raise (ValueError "alpha must be between [0, 1]").
Proof. intros Ha. by apply rouge_n_sentence_level_invalid. Qed.

Lemma rouge_n_summary_level_empty text1 text2 n alpha :
  Forall (λ sentence, sentence = []) text1 →
  Forall (λ sentence, sentence = []) text2 →
  (1 ≤ n)%Z → valid_alpha alpha →
  rouge_n_summary_level text1 text2 n alpha = Ok (0, 0, 0)%R.
Proof.
  intros H1 H2 Hn Ha. unfold rouge_n_summary_level.
  rewrite !_flatten_sentences_flatten, !flatten_empty by done.
  by apply rouge_n_sentence_level_empty.
Qed.

Lemma rouge_l_summary_level_empty text1 text2 alpha :
  Forall (λ sentence, sentence = []) text1 →
  Forall (λ sentence, sentence = []) text2 →
  valid_alpha alpha →
  rouge_l_summary_level text1 text2 alpha = Ok (0, 0, 0)%R.
Proof.
  intros H1 H2 Ha. unfold rouge_l_summary_level.
  destruct (credit_references_ok text1 text2 text1 text2 _
              (rouge_l_summary_level__init_invariant _ _))
    as (st & -> & Hnn & Htot & Hs & Hr).
  simpl. destruct (counts_nonneg_get st Hnn) as [Hgs _].
  apply counter_sum_nonneg in Hgs.
  rewrite flatten_empty in Hs by done. unfold len in Hs. simpl in Hs.
  replace (total_lcs_words st) with 0%Z by lia.
  by apply _f1_measure_zero.
Qed.

(** The n-gram and LCS routines raise exactly on an invalid [alpha];
    [rouge_w_sentence_level] raises a [ValueError] only on an invalid
    parameter, and always on an invalid weight. *)
Lemma implemented_routines_raise_iff x y text1 text2 n weight alpha :
  ((∃ e, rouge_n_sentence_level x y n alpha = Raise e) ↔ ¬ valid_alpha alpha)
  ∧ ((∃ e, rouge_l_sentence_level x y alpha = Raise e) ↔ ¬ valid_alpha alpha)
  ∧ ((∃ e, rouge_n_summary_level text1 text2 n alpha = Raise e)
     ↔ ¬ valid_alpha alpha)
  ∧ ((∃ e, rouge_l_summary_level text1 text2 alpha = Raise e)
     ↔ ¬ valid_alpha alpha)
  ∧ ((∃ msg, rouge_w_sentence_level x y weight alpha
             = Raise (ValueError msg))
     → ¬ valid_alpha alpha ∨ ¬ valid_weight weight)
  ∧ (¬ valid_weight weight →
     ∃ msg, rouge_w_sentence_level x y weight alpha
            = Raise (ValueError msg)).
Proof.
  repeat split.
  - intros [e He] Ha.
    destruct (rouge_n_sentence_level_unit x y n alpha Ha) as (t & Ht & _).
    congruence.
  - intros Ha. eexists. by apply rouge_n_sentence_level_invalid.
  - intros [e He] Ha.
    destruct (rouge_l_sentence_level_unit x y alpha Ha) as (t & Ht & _).
    congruence.
  - intros Ha. eexists. by apply rouge_l_sentence_level_invalid.
  - intros [e He] Ha.
    destruct (rouge_n_summary_level_unit text1 text2 n alpha Ha)
      as (t & Ht & _).
    congruence.
  - intros Ha. eexists. by apply rouge_n_summary_level_invalid.
  - intros [e He] Ha.
    destruct (rouge_l_summary_level_unit text1 text2 alpha Ha)
      as (t & Ht & _).
    congruence.
  - intros Ha. eexists. by apply rouge_l_summary_level_invalid.
  - intros [msg He].
    destruct (decide (valid_alpha alpha)) as [Ha|Ha]; [|by left].
    destruct (decide (valid_weight weight)) as [Hw|Hw]; [|by right].
    destruct (rouge_w_sentence_level_valid_cases x y weight alpha Hw)
      as [(recall & precision & _ & _ & Heq)|Heq]; [|congruence].
    rewrite Heq, _compute_f1_measure_valid in He by done. done.
  - intros Hw. eexists. by apply rouge_w_sentence_level_invalid_weight.
Qed.

(** On empty sentences and valid parameters the implemented routines
    return three zeros. *)
Lemma implemented_routines_empty_zero text1 text2 n weight alpha :
  Forall (λ sentence, sentence = []) text1 →
  Forall (λ sentence, sentence = []) text2 →
  (1 ≤ n)%Z → valid_alpha alpha → valid_weight weight →
  rouge_n_sentence_level (token := token) [] [] n alpha = Ok (0, 0, 0)%R
  ∧ rouge_l_sentence_level (token := token) [] [] alpha = Ok (0, 0, 0)%R
  ∧ rouge_w_sentence_level (token := token) [] [] weight alpha
    = Ok (0, 0, 0)%R
  ∧ rouge_n_summary_level text1 text2 n alpha = Ok (0, 0, 0)%R
  ∧ rouge_l_summary_level text1 text2 alpha = Ok (0, 0, 0)%R.
Proof.
  intros H1 H2 Hn Ha Hw. split; [|split; [|split; [|split]]].
  - by apply rouge_n_sentence_level_empty.
  - by apply rouge_l_sentence_level_empty.
  - by apply rouge_w_sentence_level_empty.
  - by apply rouge_n_summary_level_empty.
  - by apply rouge_l_summary_level_empty.
Qed.

(** C4: for every input with [n >= 1] and [alpha] in [[0, 1]], each of
    [rouge_n_sentence_level], [rouge_l_sentence_level],
    [rouge_n_summary_level] and [rouge_l_summary_level] returns a triple
    whose recall and precision lie in [[0, 1]] and whose F-measure is not
    negative, and at most 1 for the default [alpha]; for a weight power
    greater than 1, [rouge_w_sentence_level] returns a triple without a
    negative component or raises the [OverflowError] of [math.pow]. *)
Theorem scores_bounded x y text1 text2 n weight alpha :
  (1 ≤ n)%Z → valid_alpha alpha → valid_weight weight →
  (∃ t, rouge_n_sentence_level x y n alpha = Ok t ∧ bounded_scores alpha t)
  ∧ (∃ t, rouge_l_sentence_level x y alpha = Ok t ∧ bounded_scores alpha t)
  ∧ (∃ t, rouge_n_summary_level text1 text2 n alpha = Ok t
          ∧ bounded_scores alpha t)
  ∧ (∃ t, rouge_l_summary_level text1 text2 alpha = Ok t
          ∧ bounded_scores alpha t)
  ∧ ((∃ t, rouge_w_sentence_level x y weight alpha = Ok t ∧ nonneg_triple t)
     ∨ rouge_w_sentence_level x y weight alpha
       = Raise (OverflowError "math range error")).
Proof.
  intros Hn Ha Hw. split; [|split; [|split; [|split]]].
  - destruct (rouge_n_sentence_level_unit x y n alpha Ha) as (t & ? & ?).
    exists t. split; [done|]. by apply unit_triple_bounded.
  - destruct (rouge_l_sentence_level_unit x y alpha Ha) as (t & ? & ?).
    exists t. split; [done|]. by apply unit_triple_bounded.
  - destruct (rouge_n_summary_level_unit text1 text2 n alpha Ha)
      as (t & ? & ?).
    exists t. split; [done|]. by apply unit_triple_bounded.
  - destruct (rouge_l_summary_level_unit text1 text2 alpha Ha)
      as (t & ? & ?).
    exists t. split; [done|]. by apply unit_triple_bounded.
  - destruct (rouge_w_sentence_level_valid_cases x y weight alpha Hw)
      as [(recall & precision & Hr & Hp & ->)|Heq]; [left|by right].
    rewrite _compute_f1_measure_valid by done. simpl.
    eexists. split; [done|]. simpl. repeat split; try done.
    destruct Ha. apply _divide_or_zero_nonneg.
    + by apply Rmult_le_pos.
    + apply Rplus_le_le_0_compat; apply Rmult_le_pos; lra.
Qed.
End routines.

Lemma scores_bounded_witness :
  (1 ≤ 2)%Z ∧ valid_alpha None ∧ valid_weight None
  ∧ (∃ t, rouge_n_sentence_level example_summary_sentence
            example_reference_sentence 2 None = Ok t
          ∧ bounded_scores None t)
  ∧ (∃ t, rouge_l_sentence_level example_summary_sentence
            example_reference_sentence None = Ok t
          ∧ bounded_scores None t)
  ∧ (∃ t, rouge_n_summary_level [example_summary_sentence; ["the"]]
            [example_reference_sentence] 2 None = Ok t
          ∧ bounded_scores None t)
  ∧ (∃ t, rouge_l_summary_level [example_summary_sentence; ["the"]]
            [example_reference_sentence] None = Ok t
          ∧ bounded_scores None t)
  ∧ ((∃ t, rouge_w_sentence_level example_summary_sentence
             example_reference_sentence None None = Ok t
           ∧ nonneg_triple t)
     ∨ rouge_w_sentence_level example_summary_sentence
         example_reference_sentence None None
       = Raise (OverflowError "math range error")).
Proof.
  assert (valid_alpha None) as Ha by (unfold valid_alpha; simpl; lra).
  assert (valid_weight None) as Hw
    by (unfold valid_weight, DEFAULT_WEIGHT_FACTOR; simpl; lra).
  split; [lia|]. split; [exact Ha|]. split; [exact Hw|].
  exact (scores_bounded example_summary_sentence
           example_reference_sentence [example_summary_sentence; ["the"]]
           [example_reference_sentence] 2 None None
           ltac:(lia) Ha Hw).
Defined.

(** C4, as stated, fails twice.  For [rouge_l_sentence_level], on a
    six-token summary that contains the five-token reference: with the
    valid [alpha = 3 * 2^-54] the doubles give recall 1, precision 5/6 and
    an F-measure of [1 + 2^-52], above 1, because the rounded denominator
    falls below the numerator.  For [rouge_w_sentence_level]: the weight
    power 2000 is valid, and on [['a', 'b']] against itself the second
    match asks for [math.pow(2, 2000.0)], which raises [OverflowError]; no
    triple is returned. *)
Lemma scores_not_in_unit_interval :
  (rouge_l_sentence_level__binary64 ["a"; "b"; "c"; "d"; "e"; "f"]
     ["a"; "b"; "c"; "d"; "e"] (Some 0x1.8p-53%float)
   = Ok (1%float, 0x1.aaaaaaaaaaaabp-1%float, 0x1.0000000000001p+0%float)
   ∧ PrimFloat.leb 0%float 0x1.8p-53%float = true
   ∧ PrimFloat.leb 0x1.8p-53%float 1%float = true
   ∧ PrimFloat.ltb 1%float 0x1.0000000000001p+0%float = true)
  ∧ ((1 ≤ 1)%Z ∧ valid_alpha None ∧ valid_weight (Some 2000%R)
     ∧ rouge_w_sentence_level ["a"; "b"] ["a"; "b"] (Some 2000%R) None
       = Raise (OverflowError "math range error")
     ∧ ¬ ∃ t, rouge_w_sentence_level ["a"; "b"] ["a"; "b"] (Some 2000%R)
                None = Ok t ∧ unit_triple t).
Proof.
  split.
  { repeat split; vm_compute; reflexivity. }
  destruct _lcs_length_with_weight_2000 as [Hw Hnum].
  assert (rouge_w_sentence_level ["a"; "b"] ["a"; "b"] (Some 2000%R) None
          = Raise (OverflowError "math range error")) as Heq
    by (unfold rouge_w_sentence_level; by rewrite Hnum).
  split; [lia|]. split; [unfold valid_alpha; simpl; lra|].
  split; [exact Hw|]. split; [exact Heq|].
  intros (t & Ht & _). rewrite Heq in Ht. discriminate.
Qed.

(** ** The unimplemented routine and the error contract *)

(** C5, at its failing input: with an [alpha] of 2 and a weight power of
    1/2, both invalid, [rouge_w_summary_level] on empty sentences raises
    nothing and returns [None]; and with valid parameters it returns
    [None] too, not a triple of zeros.  (The implemented routines
    validate their parameters and return zeros on empty sentences:
    [implemented_routines_raise_iff] and
    [implemented_routines_empty_zero].) *)
Theorem rouge_w_summary_level_ignores_parameters :
  ¬ valid_alpha (Some 2%R) ∧ ¬ valid_weight (Some (1 / 2)%R)
  ∧ rouge_w_summary_level (token := string) [[]] [[]]
      (Some (1 / 2)%R) (Some 2%R) = Ok None
  ∧ (∀ e, rouge_w_summary_level (token := string) [[]] [[]]
            (Some (1 / 2)%R) (Some 2%R) ≠ Raise e)
  ∧ rouge_w_summary_level (token := string) [[]] [[]] None None
    ≠ Ok (Some (0, 0, 0)%R).
Proof.
  unfold valid_alpha, valid_weight. simpl.
  repeat split; try done; lra.
Qed.

(** ** The order in which a union is visited *)

Section visiting_order.
Context {token : Type} `{Countable token}.
Implicit Types reference : list token.
Implicit Types st : lcs_state token.

Lemma getitem_Raise {A : Type} (xs : list A) i e :
  getitem xs i = Raise e → e = IndexError "list index out of range".
Proof. unfold getitem. destruct (xs !! i); congruence. Qed.

(** Crediting two words in either order ends in the same state. *)
Lemma credit_word_comm reference st w1 w2 :
  (s ← credit_word reference st w1; credit_word reference s w2)
  = (s ← credit_word reference st w2; credit_word reference s w1).
Proof.
  destruct (getitem reference w1) as [a|e1] eqn:E1;
    destruct (getitem reference w2) as [b|e2] eqn:E2;
    unfold credit_word; rewrite ?E1, ?E2; simpl.
  - destruct (decide (a = b)) as [->|Hab]; [done|].
    assert ([a] ≠ [b]) as Hne by congruence.
    repeat (case_decide; simpl; rewrite ?E1, ?E2; simpl);
      rewrite ?lookup_insert_ne in * by done;
      unfold counter_get in *; rewrite ?lookup_insert_ne in * by done;
      try tauto.
    f_equal. f_equal; apply insert_insert_ne; congruence.
  - case_decide; simpl; by rewrite ?E2.
  - case_decide; simpl; by rewrite ?E1.
  - apply getitem_Raise in E1, E2. congruence.
Qed.

(** The inner loop of [rouge_l_summary_level] does not depend on the order
    in which the set is visited. *)
Lemma credit_words_perm reference (words1 words2 : list nat) st :
  words1 ≡ₚ words2 →
  foldlM (credit_word reference) st words1
  = foldlM (credit_word reference) st words2.
Proof.
  intros Hperm. revert st.
  induction Hperm as [|w l1 l2 _ IH|w1 w2 l|l1 l2 l3 _ IH1 _ IH2];
    intros st; simpl.
  - done.
  - destruct (credit_word reference st w); simpl; auto.
  - pose proof (credit_word_comm reference st w1 w2) as Hc.
    destruct (credit_word reference st w1) as [s1|],
      (credit_word reference st w2) as [s2|]; simpl in *;
      [by rewrite Hc|by rewrite Hc|by rewrite <- Hc|congruence].
  - by rewrite IH1.
Qed.
End visiting_order.

(** ** The doctests of the module *)

Example _num_ngrams_doctest :
  _num_ngrams [1; 2; 3]%Z 3 = 1%Z ∧ _num_ngrams [1; 2; 3]%Z 2 = 2%Z.
Proof. split; reflexivity. Qed.

Example _get_ngram_doctest :
  _get_ngram [1; 2; 3]%Z 2 = [[1; 2]; [2; 3]]%Z
  ∧ _get_ngram [1; 2; 3]%Z 1 = [[1]; [2]; [3]]%Z.
Proof. split; reflexivity. Qed.

Example _count_ngrams_doctest :
  _count_ngrams [1; 1; 2; 2]%Z 2
  = {[ [1; 1]%Z := 1%Z; [1; 2]%Z := 1%Z; [2; 2]%Z := 1%Z ]}.
Proof. vm_compute. reflexivity. Qed.

Example _f1_measure_doctest :
  _f1_measure 1 2 3 (Some (1 / 2)%R) = Ok (1 / 2, 1 / 3, 2 / 5)%R
  ∧ _f1_measure 1 0 1 (Some (1 / 2)%R) = Ok (0, 1, 0)%R.
Proof.
  assert (valid_alpha (Some (1 / 2)%R)) as Ha
    by (unfold valid_alpha; simpl; lra).
  unfold _f1_measure. rewrite !_compute_f1_measure_valid by done. simpl.
  split.
  - rewrite !(_divide_or_zero_ne 1) by lra.
    rewrite _divide_or_zero_ne by lra.
    do 2 f_equal. field.
  - rewrite _divide_or_zero_0_r, _divide_or_zero_self by lra.
    by rewrite Rmult_0_r, _divide_or_zero_0_l.
Qed.

(** The same doctests on doubles, digit for digit: [0.3333333333333333]
    is [0x1.5555555555555p-2] and [0.4] is [0x1.999999999999ap-2]. *)
Example _f1_measure_doctest_binary64 :
  Binary64._f1_measure 1 2 3 (Some 0.5%float)
  = Ok (0.5%float, 0x1.5555555555555p-2%float, 0x1.999999999999ap-2%float)
  ∧ Binary64._f1_measure 1 0 1 (Some 0.5%float)
    = Ok (0%float, 1%float, 0%float)
  ∧ Binary64._divide_or_zero 1 2 = 0.5%float
  ∧ Binary64._divide_or_zero 1 0 = 0%float.
Proof. repeat split; vm_compute; reflexivity. Qed.

Example _clipped_ngram_count_doctest :
  _clipped_ngram_count
    (_count_ngrams ["the"; "police"; "killed"; "the"; "gunman"] 1)
    (_count_ngrams ["gunman"; "the"; "police"; "killed"] 1) = 4%Z.
Proof. vm_compute. reflexivity. Qed.

Example _flatten_sentences_doctest :
  _flatten_sentences [["the"; "gunman"; "kill"; "police"];
                      ["police"; "killed"; "the"; "gunman"]]
  = ["the"; "gunman"; "kill"; "police"; "police"; "killed"; "the"; "gunman"].
Proof. reflexivity. Qed.

Example _lcs_length_doctest :
  _lcs_length ["A"; "B"; "C"; "D"; "E"] ["C"; "D"] = Ok 2
  ∧ _lcs_length ["the"; "police"; "killed"; "the"; "gunman"]
      ["gunman"; "police"; "killed"] = Ok 2.
Proof. split; vm_compute; reflexivity. Qed.

Example _lcs_elements_doctest :
  _lcs_elements ["a"; "b"] ["b"; "c"] = Ok {[(1, 0)]}
  ∧ _lcs_elements ["a"] ["d"] = Ok ∅
  ∧ _lcs_elements ["a"; "b"; "c"] ["a"; "b"; "c"]
    = Ok {[(0, 0); (1, 1); (2, 2)]}.
Proof. repeat split; vm_compute; reflexivity. Qed.

Example _make_lcs_union_doctest :
  _make_lcs_union [["w1"; "w2"; "w6"; "w7"; "w8"];
                   ["w1"; "w3"; "w8"; "w8"; "w5"]]
    ["w1"; "w2"; "w3"; "w4"; "w5"] = Ok {[0; 1; 2; 4]}.
Proof. vm_compute. reflexivity. Qed.

Example _flatten_and_count_ngrams_doctest :
  _flatten_and_count_ngrams [["the"; "cat"; "sat"; "on"; "the"; "mat"];
                             ["the"; "cat"; "on"; "the"; "mat"]] 1
  = {[ ["the"] := 4%Z; ["cat"] := 2%Z; ["on"] := 2%Z; ["mat"] := 2%Z;
       ["sat"] := 1%Z ]}.
Proof. vm_compute. reflexivity. Qed.

Example example_state_total :
  total_lcs_words example_state = 1%Z
  ∧ summary_unigrams example_state !! ["the"] = Some 0%Z
  ∧ reference_unigrams example_state !! ["the"] = Some 0%Z
  ∧ summary_unigrams example_state !! ["police"] = Some 1%Z
  ∧ reference_unigrams example_state !! ["police"] = Some 1%Z.
Proof. repeat split; vm_compute; reflexivity. Qed.

(** * Further properties of the code *)

(** ** [_lcs_length] computes the length of a longest common subsequence *)

Section lcs_optimal.
Context {token : Type} `{Countable token}.
Implicit Types x y z : list token.

(** Neighbouring cells of the table differ by at most one, upwards. *)
Lemma lcs_rec_down x y i j :
  lcs_rec x y i j ≤ lcs_rec x y (S i) j
  ∧ lcs_rec x y (S i) j ≤ lcs_rec x y i j + 1.
Proof.
  remember (i + j) as n eqn:Hn. revert x y i j Hn.
  induction n as [n IH] using lt_wf_ind. intros x y i j ->.
  destruct j as [|j]; [rewrite !lcs_rec_0 by auto; lia|].
  assert (lcs_rec x y i j ≤ lcs_rec x y i (S j)
          ∧ lcs_rec x y i (S j) ≤ lcs_rec x y i j + 1) as Hright.
  { rewrite (lcs_rec_sym x y i j), (lcs_rec_sym x y i (S j)).
    apply (IH (j + i)); lia. }
  pose proof (IH (i + j) ltac:(lia) x y i j eq_refl) as Hdown.
  rewrite lcs_rec_S. case_decide; lia.
Qed.

Lemma lcs_rec_right x y i j :
  lcs_rec x y i j ≤ lcs_rec x y i (S j)
  ∧ lcs_rec x y i (S j) ≤ lcs_rec x y i j + 1.
Proof.
  rewrite (lcs_rec_sym x y i j), (lcs_rec_sym x y i (S j)).
  apply lcs_rec_down.
Qed.

(** No common subsequence of two prefixes is longer than their cell. *)
Lemma lcs_rec_upper x y i j z :
  i ≤ length x → j ≤ length y →
  z `sublist_of` take i x → z `sublist_of` take j y →
  length z ≤ lcs_rec x y i j.
Proof.
  revert j z. induction i as [|i IHi]; intros j z Hi Hj Hzx Hzy.
  { apply sublist_nil_r in Hzx as ->. simpl. lia. }
  revert z Hzx Hzy. induction j as [|j IHj]; intros z Hzx Hzy.
  { apply sublist_nil_r in Hzy as ->. simpl. lia. }
  destruct (lookup_lt_is_Some_2 x i) as [a Ha]; [lia|].
  destruct (lookup_lt_is_Some_2 y j) as [b Hb]; [lia|].
  pose proof (lcs_rec_down x y i j). pose proof (lcs_rec_right x y i j).
  pose proof (lcs_rec_down x y i (S j)).
  pose proof (lcs_rec_right x y (S i) j).
  rewrite (take_S_r x i a Ha) in Hzx.
  apply sublist_app_r in Hzx as (z1 & z2 & -> & Hz1 & Hz2).
  apply sublist_cons_r in Hz2 as [->%sublist_nil_r|(? & -> & ->%sublist_nil_r)].
  { rewrite app_nil_r in *.
    pose proof (IHi (S j) z1 ltac:(lia) Hj Hz1 Hzy). lia. }
  pose proof Hzy as Hzy'. rewrite (take_S_r y j b Hb) in Hzy'.
  apply sublist_app_r in Hzy' as (w1 & w2 & Heq & Hw1 & Hw2).
  apply sublist_cons_r in Hw2 as [->%sublist_nil_r|(? & -> & ->%sublist_nil_r)].
  { rewrite app_nil_r in Heq. rewrite <- Heq in Hw1.
    assert (z1 ++ [a] `sublist_of` take (S i) x) as Hzx'.
    { rewrite (take_S_r x i a Ha). by apply sublist_app. }
    pose proof (IHj ltac:(lia) (z1 ++ [a]) Hzx' Hw1). lia. }
  apply app_inj_tail in Heq as [<- <-].
  pose proof (IHi j z1 ltac:(lia) ltac:(lia) Hz1 Hw1).
  rewrite lcs_rec_S, Ha, Hb, decide_True by done.
  rewrite length_app. simpl. lia.
Qed.

(** Every cell is attained by a common subsequence of the two prefixes. *)
Lemma lcs_rec_attained x y i j :
  i ≤ length x → j ≤ length y →
  ∃ z, z `sublist_of` take i x ∧ z `sublist_of` take j y
       ∧ length z = lcs_rec x y i j.
Proof.
  revert j. induction i as [|i IHi]; intros j Hi Hj.
  { exists []. rewrite lcs_rec_0 by auto. repeat split; apply sublist_nil_l. }
  induction j as [|j IHj].
  { exists []. rewrite lcs_rec_0 by auto. repeat split; apply sublist_nil_l. }
  destruct (lookup_lt_is_Some_2 x i) as [a Ha]; [lia|].
  destruct (lookup_lt_is_Some_2 y j) as [b Hb]; [lia|].
  rewrite lcs_rec_S, Ha, Hb.
  destruct (decide (Some a = Some b)) as [[= <-]|Hne].
  - destruct (IHi j) as (z & Hzx & Hzy & Hlen); [lia..|].
    exists (z ++ [a]). rewrite (take_S_r x i a Ha), (take_S_r y j a Hb).
    rewrite length_app. simpl. repeat split; [by apply sublist_app..|lia].
  - destruct (Nat.max_spec (lcs_rec x y i (S j)) (lcs_rec x y (S i) j))
      as [[_ ->]|[_ ->]].
    + destruct IHj as (z & Hzx & Hzy & Hlen); [lia|].
      exists z. rewrite (take_S_r y j b Hb).
      repeat split; [done|by apply sublist_inserts_r|done].
    + destruct (IHi (S j)) as (z & Hzx & Hzy & Hlen); [lia..|].
      exists z. rewrite (take_S_r x i a Ha).
      repeat split; [by apply sublist_inserts_r|done..].
Qed.

(** X1: [_lcs_length x y] returns the length of a longest common
    subsequence: some subsequence of both [x] and [y] has that length, and
    no common subsequence is longer. *)
Theorem _lcs_length_is_longest x y :
  ∃ v, _lcs_length x y = Ok v
       ∧ (∃ z, z `sublist_of` x ∧ z `sublist_of` y ∧ length z = v)
       ∧ (∀ z, z `sublist_of` x → z `sublist_of` y → length z ≤ v).
Proof.
  rewrite _lcs_length_spec. eexists; split; [done|]. split.
  - destruct (lcs_rec_attained x y (length x) (length y)) as (z & Hx & Hy & Hl);
      [done..|].
    rewrite !take_ge in * by done. by exists z.
  - intros z Hx Hy. apply lcs_rec_upper; rewrite ?take_ge; done.
Qed.
End lcs_optimal.

(** ** [_lcs_elements] returns an alignment of LCS length *)

Section lcs_elements_correct.
Context {token : Type} `{Countable token}.
Implicit Types x y : list token.

Local Arguments _lcs_elements__loop : simpl never.

Lemma trace_rec_S x y i j :
  trace_rec x y (S i) (S j) =
    if decide (x !! i = y !! j) then "d"
    else if decide (lcs_rec x y (S i) j < lcs_rec x y i (S j)) then "u"
    else "l".
Proof. unfold trace_rec. simpl. by rewrite !Nat.sub_0_r. Qed.

(** The pairs the backtrace adds from cell [(i, j)] on: they lie before
    the cell, join equal tokens, increase together, and are as many as the
    cell's LCS length. *)
Lemma _lcs_elements__loop_pairs x y (table : gmap (nat * nat) string) :
  (∀ i j, i ≤ length x → j ≤ length y →
          trace_cell x y i j (table !! (i, j))) →
  ∀ i j acc, i ≤ length x → j ≤ length y →
    ∃ pairs,
      _lcs_elements__loop table i j acc = Ok (pairs ∪ acc)
      ∧ (∀ a b, (a, b) ∈ pairs → a < i ∧ b < j)
      ∧ lcs_alignment x y pairs
      ∧ size pairs = lcs_rec x y i j.
Proof.
  intros Htable.
  assert (∀ i j acc, i = 0 ∨ j = 0 →
    ∃ pairs : gset (nat * nat),
      Ok acc = Ok (pairs ∪ acc)
      ∧ (∀ a b, (a, b) ∈ pairs → a < i ∧ b < j)
      ∧ lcs_alignment x y pairs
      ∧ size pairs = lcs_rec x y i j) as Hborder.
  { intros i j acc Hz. exists ∅. rewrite lcs_rec_0 by done.
    split; [by rewrite union_empty_l_L|]. unfold lcs_alignment.
    repeat split; try done; set_solver. }
  induction i as [|i IHi]; [intros; apply Hborder; auto|].
  induction j as [|j IHj]; intros acc Hi Hj; [apply Hborder; auto|].
  rewrite _lcs_elements__loop_S. unfold dict_get.
  rewrite (Htable (S i) (S j)) by lia. simpl.
  rewrite trace_rec_S, lcs_rec_S.
  destruct (decide (x !! i = y !! j)) as [Heq|Hne].
  - rewrite decide_True by done.
    destruct (IHi j ({[(i, j)]} ∪ acc)) as (pairs & -> & Hlt & [Htok Hinc] & Hsz);
      [lia..|].
    exists (pairs ∪ {[(i, j)]}). split; [by rewrite (assoc_L (∪))|].
    destruct (lookup_lt_is_Some_2 x i) as [t Ht]; [lia|].
    split; [|split; [split|]].
    + intros a b [Hab|[= -> ->]%elem_of_singleton]%elem_of_union; [|lia].
      apply Hlt in Hab. lia.
    + intros a b [Hab|[= -> ->]%elem_of_singleton]%elem_of_union;
        [by apply Htok|].
      exists t. by rewrite <- Heq.
    + intros a b a' b'
        [Hab|[= -> ->]%elem_of_singleton]%elem_of_union
        [Hab'|[= -> ->]%elem_of_singleton]%elem_of_union.
      * by apply Hinc.
      * apply Hlt in Hab. lia.
      * apply Hlt in Hab'. lia.
      * lia.
    + rewrite size_union, size_singleton; [lia|].
      intros [a b] Hab [= -> ->]%elem_of_singleton. apply Hlt in Hab. lia.
  - destruct (decide (lcs_rec x y (S i) j < lcs_rec x y i (S j))) as [Hup|Hup].
    + rewrite decide_False, decide_True by done.
      destruct (IHi (S j) acc) as (pairs & -> & Hlt & Hal & Hsz); [lia..|].
      exists pairs. split; [done|]. split; [|split; [done|lia]].
      intros a b Hab. apply Hlt in Hab. lia.
    + rewrite !decide_False by done.
      destruct (IHj acc) as (pairs & -> & Hlt & Hal & Hsz); [lia..|].
      exists pairs. split; [done|]. split; [|split; [done|lia]].
      intros a b Hab. apply Hlt in Hab. lia.
Qed.

Lemma _lcs_elements_is_lcs_pairs x y :
  ∃ pairs, _lcs_elements x y = Ok pairs
           ∧ lcs_alignment x y pairs
           ∧ size pairs = lcs_rec x y (length x) (length y).
Proof.
  unfold _lcs_elements, _lcs_elements__compute_lcs_table.
  destruct (_lcs_elements__tables_spec x y) as ([lt tt] & -> & Hfill).
  simpl in *.
  destruct (_lcs_elements__loop_pairs x y tt) with
    (i := length x) (j := length y) (acc := (∅ : gset (nat * nat)))
    as (pairs & -> & _ & Hal & Hsz); [|done..|].
  { intros i j Hi Hj. by apply Hfill. }
  exists pairs. by rewrite union_empty_r_L.
Qed.

(** X2: [_lcs_elements x y] returns a set of index pairs that is an
    alignment of [x] and [y] (every pair joins equal tokens, and the pairs
    increase in both coordinates together) with as many pairs as
    [_lcs_length x y] returns: the backtrace recovers a longest common
    subsequence. *)
Theorem _lcs_elements_is_lcs x y :
  ∃ pairs, _lcs_elements x y = Ok pairs
           ∧ lcs_alignment x y pairs
           ∧ _lcs_length x y = Ok (size pairs).
Proof.
  destruct (_lcs_elements_is_lcs_pairs x y) as (pairs & Hp & Hal & Hsz).
  exists pairs. by rewrite _lcs_length_spec, Hsz.
Qed.
End lcs_elements_correct.

(** ** [_make_lcs_union] collects the matched reference positions *)

Section lcs_union_correct.
Context {token : Type} `{Countable token}.
Implicit Types x y reference : list token.

Lemma _make_lcs_union_loop_elem (summary_sentences : list (list token))
    reference (acc : gset nat) :
  ∃ lcs_union,
    foldlM (λ lcs_union sentence,
      lcs ← _lcs_elements sentence reference;
      Ok (lcs_union ∪ set_map (D := gset nat) snd lcs))
      acc summary_sentences = Ok lcs_union
    ∧ ∀ w, w ∈ lcs_union ↔
           w ∈ acc ∨ ∃ sentence pairs a,
                       sentence ∈ summary_sentences
                       ∧ _lcs_elements sentence reference = Ok pairs
                       ∧ (a, w) ∈ pairs.
Proof.
  revert acc.
  induction summary_sentences as [|sentence summary_sentences IH];
    intros acc; simpl.
  { exists acc. split; [done|]. intros w. split; [by left|].
    intros [?|(? & ? & ? & []%elem_of_nil & _)]; done. }
  destruct (_lcs_elements_ok sentence reference) as (lcs & Hlcs & _).
  rewrite Hlcs. simpl.
  destruct (IH (acc ∪ set_map (D := gset nat) snd lcs)) as (u & -> & Hu).
  exists u. split; [done|]. intros w. rewrite Hu, elem_of_union, elem_of_map.
  split.
  - intros [[?|([a w'] & -> & Hp)]|(s & pairs & a & Hs & Hp & Ha)].
    + by left.
    + right. exists sentence, lcs, a. split; [left|done].
    + right. exists s, pairs, a. split; [by right|done].
  - intros [?|(s & pairs & a & [->|Hs]%elem_of_cons & Hp & Ha)].
    + by left; left.
    + left; right. exists (a, w). split; [done|]. congruence.
    + right. by exists s, pairs, a.
Qed.

(** X3: [_make_lcs_union summary_sentences reference] returns exactly the
    reference positions that the backtrace of some summary sentence pairs
    with a summary token; every such position is a valid index of the
    reference whose word occurs in a summary sentence, so without summary
    sentences the union is empty. *)
Theorem _make_lcs_union_positions (summary_sentences : list (list token))
    reference :
  ∃ lcs_union,
    _make_lcs_union summary_sentences reference = Ok lcs_union
    ∧ (∀ w, w ∈ lcs_union ↔
            ∃ sentence pairs a,
              sentence ∈ summary_sentences
              ∧ _lcs_elements sentence reference = Ok pairs
              ∧ (a, w) ∈ pairs)
    ∧ (∀ w, w ∈ lcs_union →
            ∃ t sentence, reference !! w = Some t
                          ∧ sentence ∈ summary_sentences ∧ t ∈ sentence).
Proof.
  destruct (_make_lcs_union_loop_elem summary_sentences reference ∅)
    as (u & Hu & Helem).
  exists u. split; [exact Hu|].
  assert (∀ w, w ∈ u ↔
            ∃ sentence pairs a,
              sentence ∈ summary_sentences
              ∧ _lcs_elements sentence reference = Ok pairs
              ∧ (a, w) ∈ pairs) as Hchar.
  { intros w. rewrite Helem. split; [intros [[]%not_elem_of_empty|?]|]; auto. }
  split; [exact Hchar|].
  intros w (sentence & pairs & a & Hs & Hp & Ha)%Hchar.
  destruct (_lcs_elements_is_lcs_pairs sentence reference)
    as (pairs' & Hp' & [Htok _] & _).
  rewrite Hp in Hp'. injection Hp' as <-.
  destruct (Htok a w Ha) as (t & Hx & Hy).
  exists t, sentence. split; [done|]. split; [done|].
  by eapply list_elem_of_lookup_2.
Qed.
End lcs_union_correct.

(** ** N-gram statistics *)

Section ngram_facts.
Context {token : Type} `{Countable token}.
Implicit Types words : list token.

(** A slice with bounds inside the list is a window of the list. *)
Lemma slice_window {A : Type} (xs : list A) (i n : nat) :
  i + n ≤ length xs →
  slice xs (Z.of_nat i) (Z.of_nat i + Z.of_nat n) = take n (drop i xs).
Proof.
  intros Hin. unfold slice, slice_bound, len.
  destruct (Z.ltb_spec (Z.of_nat i) 0); [lia|].
  destruct (Z.ltb_spec (Z.of_nat i + Z.of_nat n) 0); [lia|].
  rewrite !Z.min_l by lia.
  by replace (Z.to_nat (Z.of_nat i + Z.of_nat n - Z.of_nat i)) with n by lia;
    rewrite Nat2Z.id.
Qed.

Lemma _get_ngram_windows_eq words (n : Z) :
  (0 ≤ n)%Z →
  _get_ngram words n =
    (λ i, take (Z.to_nat n) (drop i words))
      <$> seq 0 (length words + 1 - Z.to_nat n).
Proof.
  intros Hn. unfold _get_ngram, range, _num_ngrams, len.
  replace (Z.to_nat (Z.max (Z.of_nat (length words) - n + 1) 0))
    with (length words + 1 - Z.to_nat n) by lia.
  rewrite <- list_fmap_compose. apply list_eq. intros k.
  rewrite !list_lookup_fmap.
  destruct (seq 0 (length words + 1 - Z.to_nat n) !! k) as [i|] eqn:Hk;
    [|done].
  simpl. f_equal. apply lookup_seq in Hk as [-> Hlt]. simpl.
  rewrite <- (Z2Nat.id n) at 1 by done.
  apply slice_window. lia.
Qed.

(** X4: for an order [n >= 0], the n-grams that [_get_ngram] yields are
    the windows [words[i : i + n]] for [i = 0 .. len(words) - n], in
    order, and every one of them has exactly [n] tokens; there is none
    when [n > len(words)]. *)
Theorem _get_ngram_windows words (n : Z) :
  (0 ≤ n)%Z →
  _get_ngram words n =
    (λ i, take (Z.to_nat n) (drop i words))
      <$> seq 0 (length words + 1 - Z.to_nat n)
  ∧ Forall (λ ngram, length ngram = Z.to_nat n) (_get_ngram words n)
  ∧ (len words < n → _get_ngram words n = [])%Z.
Proof.
  intros Hn. rewrite _get_ngram_windows_eq by done. split; [done|]. split.
  - apply Forall_fmap, Forall_forall. intros i [_ Hi]%elem_of_seq. simpl.
    rewrite length_take, length_drop. lia.
  - unfold len. intros Hlt.
    by replace (length words + 1 - Z.to_nat n) with 0 by lia.
Qed.
End ngram_facts.

Lemma _get_ngram_windows_witness :
  (0 ≤ 2)%Z
  ∧ _get_ngram ["the"; "police"; "killed"] 2 =
      (λ i, take (Z.to_nat 2) (drop i ["the"; "police"; "killed"]))
        <$> seq 0 (length ["the"; "police"; "killed"] + 1 - Z.to_nat 2)
  ∧ Forall (λ ngram, length ngram = Z.to_nat 2)
      (_get_ngram ["the"; "police"; "killed"] 2)
  ∧ (len ["the"; "police"; "killed"] < 2 →
     _get_ngram ["the"; "police"; "killed"] 2 = [])%Z.
Proof.
  split; [lia|]. apply (_get_ngram_windows ["the"; "police"; "killed"] 2). lia.
Defined.

(** ** Counters and clipped counts *)

Section counter_facts.
Context {K : Type} `{Countable K}.
Implicit Types c : gmap K Z.
Local Open Scope Z_scope.

(** The loop of [Counter] adds to each key the number of its
    occurrences. *)
Lemma Counter_loop_lookup (elems : list K) c k :
  default 0 (foldl (λ c k, <[k := default 0 (c !! k) + 1]> c) c elems !! k)
  = default 0 (c !! k) + Z.of_nat (length (filter (λ e, e = k) elems)).
Proof.
  revert c. induction elems as [|e elems IH]; intros c; simpl; [lia|].
  rewrite IH. destruct (decide (e = k)) as [->|Hne].
  - rewrite lookup_insert_eq, filter_cons_True by done. simpl. lia.
  - rewrite lookup_insert_ne, filter_cons_False by done. lia.
Qed.

Lemma Counter_lookup (elems : list K) k :
  default 0 (Counter elems !! k)
  = Z.of_nat (length (filter (λ e, e = k) elems)).
Proof. unfold Counter. by rewrite Counter_loop_lookup, lookup_empty. Qed.

Lemma Counter_loop_is_Some (elems : list K) c k :
  is_Some (foldl (λ c k, <[k := default 0 (c !! k) + 1]> c) c elems !! k)
  ↔ is_Some (c !! k) ∨ k ∈ elems.
Proof.
  revert c. induction elems as [|e elems IH]; intros c; simpl.
  - split; [by left|]. by intros [?|?%elem_of_nil].
  - rewrite IH, elem_of_cons. destruct (decide (e = k)) as [->|Hne].
    + rewrite lookup_insert_eq. split; [by right; left|by left].
    + rewrite lookup_insert_ne by done. split; [tauto|].
      intros [?|[?|?]]; [by left|congruence|by right].
Qed.

Lemma Counter_is_Some (elems : list K) k :
  is_Some (Counter elems !! k) ↔ k ∈ elems.
Proof.
  unfold Counter. rewrite Counter_loop_is_Some, lookup_empty.
  split; [by intros [[]%is_Some_None|?]|by right].
Qed.

Lemma counter_and_comm (a b : gmap K Z) : counter_and a b = counter_and b a.
Proof.
  apply map_eq. intros k. unfold counter_and.
  rewrite !lookup_intersection_with.
  destruct (a !! k) as [ca|], (b !! k) as [cb|]; simpl; try done.
  unfold intersection_with, option_intersection_with.
  destruct (Z.ltb_spec ca cb), (Z.ltb_spec cb ca); try done; try lia.
  by replace ca with cb by lia.
Qed.

(** A counter with positive counts clipped by itself is itself. *)
Lemma counter_and_diag c :
  (∀ k v, c !! k = Some v → 0 < v) → counter_and c c = c.
Proof.
  intros Hpos. apply map_eq. intros k. unfold counter_and.
  rewrite lookup_intersection_with.
  destruct (c !! k) as [v|] eqn:Hk; [|done].
  unfold intersection_with, option_intersection_with.
  rewrite Z.ltb_irrefl. apply Hpos in Hk.
  by destruct (Z.ltb_spec 0 v); [|lia].
Qed.
End counter_facts.

Section ngram_counts.
Context {token : Type} `{Countable token}.
Implicit Types words : list token.

(** X5: [_count_ngrams words n] stores for each n-gram the number of
    times [_get_ngram] yields it, holds a key exactly for the n-grams that
    occur, keeps every stored count positive, and its counts add up to
    [_num_ngrams words n]. *)
Theorem _count_ngrams_tally words (n : Z) :
  (∀ ngram,
     default 0%Z (_count_ngrams words n !! ngram)
     = Z.of_nat (length (filter (λ e, e = ngram) (_get_ngram words n))))
  ∧ (∀ ngram, is_Some (_count_ngrams words n !! ngram)
              ↔ ngram ∈ _get_ngram words n)
  ∧ (∀ ngram count,
       _count_ngrams words n !! ngram = Some count → (0 < count)%Z)
  ∧ counter_sum (_count_ngrams words n) = _num_ngrams words n.
Proof.
  unfold _count_ngrams. repeat split.
  - intros ngram. apply Counter_lookup.
  - by apply Counter_is_Some.
  - by apply Counter_is_Some.
  - intros ngram count. apply Counter_pos.
  - by rewrite Counter_sum, _get_ngram_length.
Qed.

(** X6: [_clipped_ngram_count] does not depend on the order of its two
    counters, and on the n-gram tallies of two sentences it lies between 0
    and the smaller of the two n-gram counts. *)
Theorem _clipped_ngram_count_symmetric_bounded :
  (∀ a b : gmap (list token) Z,
     _clipped_ngram_count a b = _clipped_ngram_count b a)
  ∧ (∀ (summary reference : list token) (n : Z),
       (0 ≤ _clipped_ngram_count (_count_ngrams summary n)
              (_count_ngrams reference n)
        ∧ _clipped_ngram_count (_count_ngrams summary n)
            (_count_ngrams reference n)
          ≤ _num_ngrams summary n `min` _num_ngrams reference n)%Z).
Proof.
  split.
  - intros a b. unfold _clipped_ngram_count. by rewrite counter_and_comm.
  - intros summary reference n.
    pose proof (_clipped_ngram_count_bounds summary reference n). simpl in *.
    lia.
Qed.

Lemma rouge_n_sentence_level_same words n alpha :
  (0 < _num_ngrams words n)%Z → valid_alpha alpha →
  rouge_n_sentence_level words words n alpha = Ok (1, 1, 1)%R.
Proof.
  intros Hnum Ha. unfold rouge_n_sentence_level, _clipped_ngram_count.
  rewrite counter_and_diag by (intros ??; apply Counter_pos).
  unfold _count_ngrams. rewrite Counter_sum, _get_ngram_length.
  apply _f1_measure_perfect; [done|]. apply not_0_IZR. lia.
Qed.

(** X7: when a sentence is shorter than [n] there are no n-grams to
    match: for a valid [alpha], [rouge_n_sentence_level] returns three
    zeros as soon as the summary or the reference has fewer than [n]
    tokens (zero denominators are not an error). *)
Theorem rouge_n_sentence_level_too_short
    (summary reference : list token) n alpha :
  (len summary < n ∨ len reference < n)%Z → valid_alpha alpha →
  rouge_n_sentence_level summary reference n alpha = Ok (0, 0, 0)%R.
Proof.
  intros Hshort Ha. unfold rouge_n_sentence_level.
  pose proof (_clipped_ngram_count_bounds summary reference n) as Hb.
  simpl in Hb.
  assert (_clipped_ngram_count (_count_ngrams summary n)
            (_count_ngrams reference n) = 0%Z) as ->
    by (unfold _num_ngrams in Hb; lia).
  by apply _f1_measure_zero.
Qed.

(** X8: a sentence scored against itself is a perfect match: when the
    sentence has at least one n-gram ([1 <= n <= len(words)]) and [alpha]
    is valid, [rouge_n_sentence_level words words n alpha] returns
    [(1, 1, 1)]. *)
Theorem rouge_n_sentence_level_self words n alpha :
  (1 ≤ n ≤ len words)%Z → valid_alpha alpha →
  rouge_n_sentence_level words words n alpha = Ok (1, 1, 1)%R.
Proof.
  intros Hn Ha. apply rouge_n_sentence_level_same; [|done].
  unfold _num_ngrams. lia.
Qed.
End ngram_counts.

Lemma rouge_n_sentence_level_too_short_witness :
  (len ["the"] < 2 ∨ len example_reference_sentence < 2)%Z
  ∧ valid_alpha None
  ∧ rouge_n_sentence_level ["the"] example_reference_sentence 2 None
    = Ok (0, 0, 0)%R.
Proof.
  assert (valid_alpha None) as Ha by (unfold valid_alpha; simpl; lra).
  assert (len ["the"] < 2 ∨ len example_reference_sentence < 2)%Z as Hs
    by (left; unfold len; simpl; lia).
  split; [exact Hs|]. split; [exact Ha|].
  exact (rouge_n_sentence_level_too_short ["the"] example_reference_sentence
           2 None Hs Ha).
Defined.

Lemma rouge_n_sentence_level_self_witness :
  (1 ≤ 2 ≤ len example_reference_sentence)%Z
  ∧ valid_alpha None
  ∧ rouge_n_sentence_level example_reference_sentence
      example_reference_sentence 2 None = Ok (1, 1, 1)%R.
Proof.
  assert (valid_alpha None) as Ha by (unfold valid_alpha; simpl; lra).
  assert (1 ≤ 2 ≤ len example_reference_sentence)%Z as Hn
    by (unfold len; simpl; lia).
  split; [exact Hn|]. split; [exact Ha|].
  exact (rouge_n_sentence_level_self example_reference_sentence 2 None Hn Ha).
Defined.

(** ** Exchanging summary and reference *)

Section swap.
Context {token : Type} `{Countable token}.
Implicit Types x y : list token.
Local Open Scope R_scope.

(** With equal weights on recall and precision the F-measure does not
    tell them apart; only the commutativity of [+] and [*] is used. *)
Lemma _compute_f1_measure_comm recall precision alpha :
  default (1 / 2) alpha = 1 / 2 →
  _compute_f1_measure precision recall alpha
  = _compute_f1_measure recall precision alpha.
Proof.
  intros Hhalf. unfold _compute_f1_measure. rewrite Hhalf.
  case_decide; [|done]. f_equal.
  rewrite (Rmult_comm recall precision). f_equal. lra.
Qed.

Lemma _f1_measure_swap numerator r_denominator p_denominator alpha :
  default (1 / 2) alpha = 1 / 2 →
  _f1_measure numerator p_denominator r_denominator alpha
  = swap_triple <$> _f1_measure numerator r_denominator p_denominator alpha.
Proof.
  intros Hhalf. unfold _f1_measure.
  rewrite (_compute_f1_measure_comm _ _ alpha Hhalf).
  by destruct (_compute_f1_measure _ _ alpha).
Qed.

(** X10: with the default [alpha] of 0.5, exchanging the summary and the
    reference exchanges recall and precision and leaves the F-measure
    unchanged; this holds for [rouge_n_sentence_level],
    [rouge_l_sentence_level] and [rouge_w_sentence_level], errors
    included. *)
Theorem sentence_level_swap x y n weight alpha :
  default (1 / 2) alpha = 1 / 2 →
  rouge_n_sentence_level y x n alpha
  = swap_triple <$> rouge_n_sentence_level x y n alpha
  ∧ rouge_l_sentence_level y x alpha
    = swap_triple <$> rouge_l_sentence_level x y alpha
  ∧ rouge_w_sentence_level y x weight alpha
    = swap_triple <$> rouge_w_sentence_level x y weight alpha.
Proof.
  intros Hhalf. split; [|split].
  - unfold rouge_n_sentence_level, _clipped_ngram_count.
    rewrite (counter_and_comm (_count_ngrams y n)).
    by apply _f1_measure_swap.
  - unfold rouge_l_sentence_level. rewrite !_lcs_length_spec. simpl.
    rewrite (lcs_rec_sym y x). by apply _f1_measure_swap.
  - destruct (decide (valid_weight weight)) as [Hw|Hw]; cycle 1.
    { by rewrite !rouge_w_sentence_level_invalid_weight. }
    unfold rouge_w_sentence_level.
    rewrite (_lcs_length_with_weight_swap y x).
    destruct (_lcs_length_with_weight_valid x y weight Hw)
      as [(v & -> & Hv)| ->]; [|done].
    simpl.
    destruct (rouge_w_sentence_level__compute_cases weight v
                (IZR (len y)) Hw Hv) as [(recall & -> & _)| ->];
      [apply IZR_le; unfold len; lia| |];
    destruct (rouge_w_sentence_level__compute_cases weight v
                (IZR (len x)) Hw Hv) as [(precision & -> & _)| ->];
      try (apply IZR_le; unfold len; lia); simpl; try done.
    rewrite (_compute_f1_measure_comm _ _ alpha Hhalf).
    by destruct (_compute_f1_measure _ _ alpha).
Qed.
End swap.

Lemma sentence_level_swap_witness :
  default (1 / 2)%R (@None R) = (1 / 2)%R
  ∧ rouge_n_sentence_level example_reference_sentence
      example_summary_sentence 2 None
    = swap_triple <$> rouge_n_sentence_level example_summary_sentence
                        example_reference_sentence 2 None
  ∧ rouge_l_sentence_level example_reference_sentence
      example_summary_sentence None
    = swap_triple <$> rouge_l_sentence_level example_summary_sentence
                        example_reference_sentence None
  ∧ rouge_w_sentence_level example_reference_sentence
      example_summary_sentence None None
    = swap_triple <$> rouge_w_sentence_level example_summary_sentence
                        example_reference_sentence None None.
Proof.
  split; [reflexivity|].
  exact (sentence_level_swap example_summary_sentence
           example_reference_sentence 2 None None eq_refl).
Defined.

(** ** More on the LCS length *)

Section lcs_more.
Context {token : Type} `{Countable token}.
Implicit Types x y z : list token.

Lemma sublist_same_length z y :
  z `sublist_of` y → length z = length y → z = y.
Proof.
  induction 1 as [|a z y Hzy IH|a z y Hzy IH]; simpl; intros Hlen.
  - done.
  - f_equal. apply IH. lia.
  - apply sublist_length in Hzy. lia.
Qed.

Lemma lcs_rec_sublist x y :
  lcs_rec x y (length x) (length y) = length y ↔ y `sublist_of` x.
Proof.
  split.
  - intros Hlen.
    destruct (lcs_rec_attained x y (length x) (length y)) as (z & Hx & Hy & Hl);
      [done..|].
    rewrite !take_ge in * by done.
    rewrite (sublist_same_length z y) in Hx; [done..|lia].
  - intros Hy.
    pose proof (lcs_rec_upper x y (length x) (length y) y) as Hup.
    rewrite !take_ge in Hup by done.
    pose proof (lcs_rec_le x y (length x) (length y)).
    specialize (Hup ltac:(done) ltac:(done) Hy ltac:(done)). lia.
Qed.

(** X11: adding tokens to either sequence never lowers the LCS length: if
    [x] is a subsequence of [x'] and [y] one of [y'], then
    [_lcs_length x y] is at most [_lcs_length x' y']. *)
Theorem _lcs_length_monotone x x' y y' :
  x `sublist_of` x' → y `sublist_of` y' →
  ∃ v v', _lcs_length x y = Ok v ∧ _lcs_length x' y' = Ok v' ∧ v ≤ v'.
Proof.
  intros Hx Hy. rewrite !_lcs_length_spec. eexists _, _.
  split; [done|]. split; [done|].
  destruct (lcs_rec_attained x y (length x) (length y)) as (z & Hzx & Hzy & <-);
    [done..|].
  rewrite !take_ge in * by done.
  apply lcs_rec_upper; rewrite ?take_ge by done; try done.
  - by trans x.
  - by trans y.
Qed.

(** X12: for a non-empty reference and a valid [alpha], the recall that
    [rouge_l_sentence_level] returns is 1 exactly when the reference is a
    subsequence of the summary. *)
Theorem rouge_l_sentence_level_full_recall x y alpha :
  y ≠ [] → valid_alpha alpha →
  ∃ t, rouge_l_sentence_level x y alpha = Ok t
       ∧ (t.1.1 = 1%R ↔ y `sublist_of` x).
Proof.
  intros Hy Ha. unfold rouge_l_sentence_level, _f1_measure.
  rewrite _lcs_length_spec. simpl.
  rewrite _compute_f1_measure_valid by done. simpl.
  eexists; split; [done|]. simpl.
  rewrite <- lcs_rec_sublist. unfold len. rewrite <- INR_IZR_INZ.
  assert (INR (length y) ≠ 0%R) as Hne
    by (apply not_0_INR; by destruct y).
  rewrite _divide_or_zero_ne by done. split.
  - intros Heq. apply INR_eq.
    apply (Rmult_eq_reg_r (/ INR (length y))); [|by apply Rinv_neq_0_compat].
    rewrite Rinv_r by done. exact Heq.
  - intros ->. by apply Rinv_r.
Qed.
End lcs_more.

Lemma _lcs_length_monotone_witness :
  ["police"; "killed"] `sublist_of` ["the"; "police"; "killed"]
  ∧ ["gunman"] `sublist_of` ["police"; "gunman"]
  ∧ ∃ v v', _lcs_length ["police"; "killed"] ["gunman"] = Ok v
            ∧ _lcs_length ["the"; "police"; "killed"] ["police"; "gunman"]
              = Ok v'
            ∧ v ≤ v'.
Proof.
  assert (["police"; "killed"] `sublist_of` ["the"; "police"; "killed"])
    as Hx by (apply sublist_cons; reflexivity).
  assert (["gunman"] `sublist_of` ["police"; "gunman"])
    as Hy by (apply sublist_cons; reflexivity).
  split; [exact Hx|]. split; [exact Hy|].
  exact (_lcs_length_monotone _ _ _ _ Hx Hy).
Defined.

Lemma rouge_l_sentence_level_full_recall_witness :
  ["police"; "killed"] ≠ [] ∧ valid_alpha None
  ∧ ∃ t, rouge_l_sentence_level ["the"; "police"; "killed"]
           ["police"; "killed"] None = Ok t
         ∧ (t.1.1 = 1%R
            ↔ ["police"; "killed"] `sublist_of` ["the"; "police"; "killed"]).
Proof.
  assert (valid_alpha None) as Ha by (unfold valid_alpha; simpl; lra).
  split; [done|]. split; [exact Ha|].
  apply (rouge_l_sentence_level_full_recall ["the"; "police"; "killed"]
           ["police"; "killed"] None); done.
Defined.

(** ** Visiting order, sentence boundaries *)

Section summary_level_facts.
Context {token : Type} `{Countable token}.
Implicit Types reference : list token.
Implicit Types text : list (list token).

(** X13: the inner loop of [rouge_l_summary_level] does not depend on the
    order in which the set [lcs_union] is visited: crediting its words in
    any order ends in the same state (or raises the same error). *)
Theorem rouge_l_summary_level_order_irrelevant reference
    (lcs_union : gset nat) (words : list nat) (st : lcs_state token) :
  words ≡ₚ elements lcs_union →
  foldlM (credit_word reference) st words
  = foldlM (credit_word reference) st (elements lcs_union).
Proof. apply credit_words_perm. Qed.

Lemma _flatten_sentences_app text1 text2 :
  _flatten_sentences (text1 ++ text2)
  = _flatten_sentences text1 ++ _flatten_sentences text2.
Proof.
  rewrite !_flatten_sentences_flatten.
  induction text1 as [|sentence text1 IH]; simpl; [done|].
  by rewrite IH, app_assoc.
Qed.

(** X14: [_flatten_sentences] distributes over appending texts and keeps
    every token ([len] of the result is the sum of the sentence lengths),
    so [rouge_n_summary_level] does not see sentence boundaries: merging
    two adjacent sentences of the summary or of the reference leaves its
    result unchanged. *)
Theorem rouge_n_summary_level_ignores_boundaries
    text1 text2 (s1 s2 : list token) other n alpha :
  _flatten_sentences (text1 ++ text2)
  = _flatten_sentences text1 ++ _flatten_sentences text2
  ∧ len (_flatten_sentences text1) = sum_len text1
  ∧ rouge_n_summary_level (text1 ++ [s1; s2] ++ text2) other n alpha
    = rouge_n_summary_level (text1 ++ [s1 ++ s2] ++ text2) other n alpha
  ∧ rouge_n_summary_level other (text1 ++ [s1; s2] ++ text2) n alpha
    = rouge_n_summary_level other (text1 ++ [s1 ++ s2] ++ text2) n alpha.
Proof.
  assert (_flatten_sentences (text1 ++ [s1; s2] ++ text2)
          = _flatten_sentences (text1 ++ [s1 ++ s2] ++ text2)) as Hmerge.
  { rewrite !_flatten_sentences_app. f_equal. f_equal.
    rewrite !_flatten_sentences_flatten. simpl. by rewrite !app_nil_r. }
  split; [apply _flatten_sentences_app|].
  split; [by rewrite _flatten_sentences_flatten, sum_len_flatten|].
  unfold rouge_n_summary_level. by rewrite Hmerge.
Qed.
End summary_level_facts.

Lemma rouge_l_summary_level_order_irrelevant_witness :
  [0; 1] ≡ₚ elements ({[0; 1]} : gset nat)
  ∧ foldlM (credit_word ["the"; "police"])
      (rouge_l_summary_level__init [["the"; "police"]] [["the"; "police"]])
      [0; 1]
    = foldlM (credit_word ["the"; "police"])
        (rouge_l_summary_level__init [["the"; "police"]] [["the"; "police"]])
        (elements ({[0; 1]} : gset nat)).
Proof.
  assert ([0; 1] ≡ₚ elements ({[0; 1]} : gset nat)) as Hperm.
  { replace (elements ({[0; 1]} : gset nat)) with [1; 0]
      by (vm_compute; reflexivity).
    apply perm_swap. }
  split; [exact Hperm|].
  exact (rouge_l_summary_level_order_irrelevant _ _ _ _ Hperm).
Defined.

(** ** The weighted LCS length *)

Section wlcs_facts.
Context {token : Type} `{Countable token}.
Implicit Types x y : list token.
Local Open Scope R_scope.

(** X15: [_lcs_length_with_weight] validates the weight only at a token
    match.  When the two sequences share no token it returns 0 for every
    weight, an invalid one included; with an invalid weight it raises the
    [ValueError] as soon as they share one. *)
Theorem _lcs_length_with_weight_validates_lazily x y weight :
  ((∀ t, t ∈ x → t ∉ y) → _lcs_length_with_weight x y weight = Ok 0)
  ∧ (¬ valid_weight weight → (∃ t, t ∈ x ∧ t ∈ y) →
     _lcs_length_with_weight x y weight
     = Raise (ValueError "weight must be > 1.0")).
Proof.
  pose proof (run_overflows_has_match
                (default DEFAULT_WEIGHT_FACTOR weight) x y) as Hov.
  split.
  - intros Hno.
    assert (¬ has_match x y) as Hnm.
    { intros (i & j & t & Hx & Hy).
      apply (Hno t); by eapply list_elem_of_lookup_2. }
    destruct (_lcs_length_with_weight_cases x y weight)
      as [[_ ->]|[(? & _)|[(_ & ? & _)|(? & _)]]]; tauto.
  - intros Hw (t & [i Hi]%list_elem_of_lookup_1 & [j Hj]%list_elem_of_lookup_1).
    assert (has_match x y) as Hm by (by exists i, j, t).
    destruct (_lcs_length_with_weight_cases x y weight)
      as [[? _]|[(_ & _ & ->)|[(? & _)|(_ & ? & _)]]]; tauto.
Qed.

End wlcs_facts.

(** ** Summary-level ROUGE-L on one-sentence texts *)

Section single_sentence.
Context {token : Type} `{Countable token}.
Implicit Types s r z : list token.

Lemma filter_length_submseteq {A : Type} (P : A → Prop)
    `{∀ a, Decision (P a)} (l1 l2 : list A) :
  l1 ⊆+ l2 → length (filter P l1) ≤ length (filter P l2).
Proof.
  induction 1 as [|a l1 l2 _ IH|a b l|a l1 l2 _ IH|l1 l2 l3 _ IH1 _ IH2].
  - done.
  - rewrite !filter_cons. case_decide; simpl; lia.
  - rewrite !filter_cons. repeat case_decide; simpl; lia.
  - rewrite filter_cons. case_decide; simpl; lia.
  - lia.
Qed.

Lemma filter_length_fmap {A B : Type} (f : A → B) (P : B → Prop)
    `{∀ b, Decision (P b)} (l : list A) :
  length (filter P (f <$> l)) = length (filter (λ a, P (f a)) l).
Proof.
  induction l as [|a l IH]; [done|]. rewrite fmap_cons.
  rewrite !filter_cons. case_decide; simpl; rewrite IH; done.
Qed.

Lemma filter_length_ext {A : Type} (P Q : A → Prop)
    `{∀ a, Decision (P a)} `{∀ a, Decision (Q a)} (l : list A) :
  (∀ a, a ∈ l → P a ↔ Q a) →
  length (filter P l) = length (filter Q l).
Proof.
  induction l as [|a l IH]; intros Hext; [done|].
  rewrite !filter_cons.
  pose proof (Hext a ltac:(left)) as Ha.
  assert (length (filter P l) = length (filter Q l)) as IH'
    by (apply IH; intros b Hb; apply Hext; by right).
  repeat case_decide; simpl; try lia; tauto.
Qed.

(** The positions of a list that hold [t] are as many as its occurrences. *)
Lemma filter_positions z (t : token) :
  length (filter (λ i, z !! i = Some t) (seq 0 (length z)))
  = length (filter (λ e, e = t) z).
Proof.
  induction z as [|a z IH] using rev_ind; [done|].
  rewrite length_app. simpl. rewrite seq_app, !filter_app, !length_app. simpl.
  rewrite <- IH. f_equal.
  - apply filter_length_ext. intros i [_ Hi]%elem_of_seq.
    by rewrite lookup_app_l by lia.
  - rewrite !filter_cons, !filter_nil.
    rewrite list_lookup_middle by done.
    repeat case_decide; simpl; congruence.
Qed.

Lemma count_positions_le z (t : token) (l : list nat) :
  NoDup l → (∀ i, i ∈ l → i < length z) →
  length (filter (λ i, z !! i = Some t) l)
  ≤ length (filter (λ e, e = t) z).
Proof.
  intros Hnd Hlt. rewrite <- filter_positions.
  apply filter_length_submseteq, NoDup_submseteq; [done|].
  intros i Hi. apply elem_of_seq. specialize (Hlt i Hi). lia.
Qed.

Lemma _get_ngram_1 z : _get_ngram z 1 = (λ e, [e]) <$> z.
Proof.
  rewrite _get_ngram_windows_eq by lia.
  replace (length z + 1 - Z.to_nat 1) with (length z) by lia.
  apply list_eq. intros i. rewrite !list_lookup_fmap.
  destruct (decide (i < length z)) as [Hi|Hi].
  - rewrite lookup_seq_lt by done.
    destruct (lookup_lt_is_Some_2 z i Hi) as [e He]. rewrite He. simpl.
    by rewrite (drop_S z e i He).
  - rewrite lookup_seq_ge, lookup_ge_None_2 by lia. done.
Qed.

(** The unigram counter of a sentence counts the occurrences of each
    token. *)
Lemma unigram_count z (t : token) :
  counter_get (_count_ngrams z 1) [t]
  = Z.of_nat (length (filter (λ e, e = t) z)).
Proof.
  unfold counter_get, _count_ngrams.
  rewrite Counter_lookup, _get_ngram_1, filter_length_fmap. f_equal.
  apply filter_length_ext. intros e _. split; congruence.
Qed.

(** When the counters hold enough of every token, the inner loop credits
    every word it visits. *)
Lemma credit_words_all r (words : list nat) (st : lcs_state token) :
  (∀ w, w ∈ words → w < length r) →
  (∀ t, (Z.of_nat (length (filter (λ w, r !! w = Some t) words))
         ≤ counter_get (summary_unigrams st) [t])%Z) →
  (∀ t, (Z.of_nat (length (filter (λ w, r !! w = Some t) words))
         ≤ counter_get (reference_unigrams st) [t])%Z) →
  ∃ st', foldlM (credit_word r) st words = Ok st'
         ∧ total_lcs_words st'
           = (total_lcs_words st + Z.of_nat (length words))%Z.
Proof.
  revert st. induction words as [|w words IH]; intros st Hlt Hs Hr; simpl.
  { exists st. split; [done|lia]. }
  destruct (getitem_lt r w) as (t0 & Ht0 & Hget); [apply Hlt; left|].
  pose proof (Hs t0) as Hs0. pose proof (Hr t0) as Hr0.
  rewrite filter_cons_True in Hs0, Hr0 by done. simpl in Hs0, Hr0.
  assert (credit_word r st w = Ok {|
    summary_unigrams :=
      <[[t0] := (counter_get (summary_unigrams st) [t0] - 1)%Z]>
        (summary_unigrams st);
    reference_unigrams :=
      <[[t0] := (counter_get (reference_unigrams st) [t0] - 1)%Z]>
        (reference_unigrams st);
    total_lcs_words := (total_lcs_words st + 1)%Z |}) as ->.
  { unfold credit_word. rewrite Hget. simpl. rewrite decide_True; [done|].
    unfold counter_get in *.
    destruct (summary_unigrams st !! [t0]), (reference_unigrams st !! [t0]);
      simpl in *; repeat split; eauto; lia. }
  simpl.
  match goal with
  | |- context [foldlM _ ?st1 words] =>
      destruct (IH st1) as (st' & -> & Htot)
  end.
  - intros w' ?. apply Hlt. by right.
  - intros t. simpl. unfold counter_get in *.
    specialize (Hs t). rewrite filter_cons in Hs.
    destruct (decide (t0 = t)) as [->|Hne].
    + rewrite lookup_insert_eq. rewrite decide_True in Hs by done.
      simpl in *. lia.
    + rewrite lookup_insert_ne by congruence.
      rewrite decide_False in Hs by congruence. done.
  - intros t. simpl. unfold counter_get in *.
    specialize (Hr t). rewrite filter_cons in Hr.
    destruct (decide (t0 = t)) as [->|Hne].
    + rewrite lookup_insert_eq. rewrite decide_True in Hr by done.
      simpl in *. lia.
    + rewrite lookup_insert_ne by congruence.
      rewrite decide_False in Hr by congruence. done.
  - exists st'. split; [done|]. rewrite Htot. simpl. lia.
Qed.

(** X17: on texts of one sentence each, summary-level ROUGE-L is
    sentence-level ROUGE-L: every position of the LCS alignment is
    credited, none is held back by the unigram counters. *)
Theorem rouge_l_summary_level_single s r alpha :
  rouge_l_summary_level [s] [r] alpha = rouge_l_sentence_level s r alpha.
Proof.
  unfold rouge_l_summary_level, rouge_l_sentence_level. simpl.
  unfold credit_reference, _make_lcs_union. simpl.
  destruct (_lcs_elements_is_lcs_pairs s r) as (E & -> & [Htok Hinc] & Hsz).
  simpl. rewrite _lcs_length_spec. simpl.
  assert (∀ p q, p ∈ elements E → q ∈ elements E →
                 (p.1 = q.1 ∨ p.2 = q.2) → p = q) as Hinj.
  { intros [a b] [a' b'] Hp%elem_of_elements Hq%elem_of_elements. simpl.
    pose proof (Hinc a b a' b' Hp Hq). pose proof (Hinc a' b' a b Hq Hp).
    intros [?|?]; f_equal; lia. }
  assert (NoDup ((elements E).*2)) as Hnd2.
  { apply NoDup_fmap_2_strong; [|apply NoDup_elements].
    intros p q Hp Hq Heq. apply Hinj; auto. }
  assert (NoDup ((elements E).*1)) as Hnd1.
  { apply NoDup_fmap_2_strong; [|apply NoDup_elements].
    intros p q Hp Hq Heq. apply Hinj; auto. }
  assert (elements (∅ ∪ set_map (D := gset nat) snd E) ≡ₚ (elements E).*2)
    as Hperm.
  { apply NoDup_Permutation; [apply NoDup_elements|done|].
    intros w. rewrite elem_of_elements, union_empty_l_L, elem_of_map.
    rewrite list_elem_of_fmap.
    split; intros (p & -> & Hp); exists p; split; try done;
      by apply elem_of_elements. }
  rewrite (credit_words_perm r _ _ _ Hperm).
  destruct (credit_words_all r ((elements E).*2)
              (rouge_l_summary_level__init [s] [r])) as (st & -> & Htot).
  - intros w ([a b] & -> & Hp%elem_of_elements)%list_elem_of_fmap. simpl.
    destruct (Htok a b Hp) as (t & _ & Hb). by eapply lookup_lt_Some.
  - intros t. simpl. unfold _flatten_and_count_ngrams.
    rewrite _flatten_sentences_flatten. simpl. rewrite app_nil_r.
    rewrite unigram_count. apply inj_le.
    rewrite filter_length_fmap.
    assert (length (filter (λ a, s !! a = Some t) ((elements E).*1))
            ≤ length (filter (λ e, e = t) s)) as Hle.
    { apply count_positions_le; [done|].
      intros a ([a' b] & -> & Hp%elem_of_elements)%list_elem_of_fmap. simpl.
      destruct (Htok a' b Hp) as (t' & Ha & _). by eapply lookup_lt_Some. }
    rewrite filter_length_fmap in Hle.
    etrans; [|exact Hle]. apply Nat.eq_le_incl, filter_length_ext.
    intros [a b] Hp%elem_of_elements. simpl.
    destruct (Htok a b Hp) as (t' & -> & ->). done.
  - intros t. simpl. unfold _flatten_and_count_ngrams.
    rewrite _flatten_sentences_flatten. simpl. rewrite app_nil_r.
    rewrite unigram_count. apply inj_le.
    apply count_positions_le; [done|].
    intros w ([a b] & -> & Hp%elem_of_elements)%list_elem_of_fmap. simpl.
    destruct (Htok a b Hp) as (t' & _ & Hb). by eapply lookup_lt_Some.
  - simpl. rewrite Htot. simpl. rewrite length_fmap.
    unfold sum_len. simpl. rewrite INR_IZR_INZ.
    replace (length (elements E)) with (size E) by done.
    by rewrite Hsz.
Qed.
End single_sentence.

(** ** Rejected parameters *)

(** X20: an [alpha] outside [[0, 1]] makes the four implemented n-gram and
    LCS routines raise the [ValueError] of [_compute_f1_measure], whatever
    the texts and the n-gram size.  [rouge_w_sentence_level] checks the
    weight first: it reports an invalid weight with its own [ValueError],
    and with a valid weight it raises for the invalid [alpha] unless
    [math.pow] has raised its [OverflowError] before. *)
Theorem invalid_parameters_raise {token : Type} `{Countable token}
    (x y : list token) (text1 text2 : list (list token)) (n : Z)
    (weight alpha : option R) :
  ¬ valid_alpha alpha →
  rouge_n_sentence_level x y n alpha
    = Raise (ValueError "alpha must be between [0, 1]")
  ∧ rouge_l_sentence_level x y alpha
    = Raise (ValueError "alpha must be between [0, 1]")
  ∧ rouge_n_summary_level text1 text2 n alpha
    = Raise (ValueError "alpha must be between [0, 1]")
  ∧ rouge_l_summary_level text1 text2 alpha
    = Raise (ValueError "alpha must be between [0, 1]")
  ∧ (valid_weight weight →
     rouge_w_sentence_level x y weight alpha
     = Raise (ValueError "alpha must be between [0, 1]")
     ∨ rouge_w_sentence_level x y weight alpha
       = Raise (OverflowError "math range error"))
  ∧ (¬ valid_weight weight →
     rouge_w_sentence_level x y weight alpha
     = Raise (ValueError "weight must be > 1.0")).
Proof.
  intros Ha. repeat split.
  - by apply rouge_n_sentence_level_invalid.
  - by apply rouge_l_sentence_level_invalid.
  - by apply rouge_n_summary_level_invalid.
  - by apply rouge_l_summary_level_invalid.
  - intros Hw.
    destruct (rouge_w_sentence_level_valid_cases x y weight alpha Hw)
      as [(recall & precision & _ & _ & ->)| ->]; [left|by right].
    by rewrite _compute_f1_measure_invalid.
  - intros Hw. by apply rouge_w_sentence_level_invalid_weight.
Qed.

Lemma invalid_parameters_raise_witness :
  ¬ valid_alpha (Some 2%R)
  ∧ rouge_n_sentence_level example_summary_sentence
      example_reference_sentence 2 (Some 2%R)
    = Raise (ValueError "alpha must be between [0, 1]")
  ∧ rouge_l_sentence_level example_summary_sentence
      example_reference_sentence (Some 2%R)
    = Raise (ValueError "alpha must be between [0, 1]")
  ∧ rouge_n_summary_level [example_summary_sentence]
      [example_reference_sentence] 2 (Some 2%R)
    = Raise (ValueError "alpha must be between [0, 1]")
  ∧ rouge_l_summary_level [example_summary_sentence]
      [example_reference_sentence] (Some 2%R)
    = Raise (ValueError "alpha must be between [0, 1]")
  ∧ (valid_weight (Some 1%R) →
     rouge_w_sentence_level example_summary_sentence
       example_reference_sentence (Some 1%R) (Some 2%R)
     = Raise (ValueError "alpha must be between [0, 1]")
     ∨ rouge_w_sentence_level example_summary_sentence
         example_reference_sentence (Some 1%R) (Some 2%R)
       = Raise (OverflowError "math range error"))
  ∧ (¬ valid_weight (Some 1%R) →
     rouge_w_sentence_level example_summary_sentence
       example_reference_sentence (Some 1%R) (Some 2%R)
     = Raise (ValueError "weight must be > 1.0")).
Proof.
  assert (¬ valid_alpha (Some 2%R)) as Ha
    by (unfold valid_alpha; simpl; lra).
  split; [exact Ha|].
  exact (invalid_parameters_raise example_summary_sentence
           example_reference_sentence [example_summary_sentence]
           [example_reference_sentence] 2 (Some 1%R) (Some 2%R) Ha).
Defined.
